(** * Cascading model removal of the bullet plugin

    Shallow embedding of [EntityManagementFeatures::RemoveModel],
    [ModelRemoved], [RemoveModelByIndex] and [RemoveModelByName]
    (bullet/src/EntityManagementFeatures.cc) together with the entity
    records and containers they work on, and the properties of the
    removal cascade. *)

From stdpp Require Import gmap strings list fin_maps.
From Stdlib Require Import ZArith.

Local Open Scope Z_scope.

(** ** Data model *)

(** [std::size_t] is a 64-bit unsigned integer; [return -1] in a function
    returning [std::size_t] yields its largest value. *)
Definition size_t_max : Z := 2 ^ 64 - 1.

(** The dynamics world of the native library ([btDiscreteDynamicsWorld]), as
    far as removal can observe it: the rigid bodies and the constraints that
    are attached to it, each named by the handle the owning record holds. *)
Record NativeWorld := mkNativeWorld {
  rigidBodies : gset Z;
  constraints : gset Z
}.

(** Records.  An [Identity] is represented by its [id] field.  Only the
    fields that [ConstructEmptyWorld] fills and the removal code reads are
    kept; the four configuration objects of a world are held as handles. *)
Module WorldInfo.
Record t := mk {
  name : string;
  collisionConfiguration : Z;
  dispatcher : Z;
  broadphase : Z;
  solver : Z;
  world : NativeWorld
}.
End WorldInfo.

Module ModelInfo.
Record t := mk {
  name : string;
  world : Z
}.
End ModelInfo.

Module LinkInfo.
Record t := mk {
  model : Z;
  link : Z
}.
End LinkInfo.

Module CollisionInfo.
Record t := mk {
  model : Z
}.
End CollisionInfo.

Module JointInfo.
Record t := mk {
  joint : Z;
  childLinkId : Z;
  parentLinkId : Z
}.
End JointInfo.

(** The members of the plugin object that the removal code touches: five
    maps from identity to record and the child-to-parent map.  The stored
    pointers come from [std::make_shared] and are never null, so a map entry
    is its record. *)
Record EntityStore := mkStore {
  worlds : gmap Z WorldInfo.t;
  models : gmap Z ModelInfo.t;
  links : gmap Z LinkInfo.t;
  collisions : gmap Z CollisionInfo.t;
  joints : gmap Z JointInfo.t;
  childIdToParentId : gmap Z Z
}.

(** ** Primitive writes

    Every statement of the removal code that writes to the store or to a
    native world is one [Action]; [apply] is its effect. *)
Inductive Action :=
| removeConstraint (bulletWorld : Z) (h : Z)
| removeRigidBody (bulletWorld : Z) (h : Z)
| eraseChildIdToParentId (k : Z)
| eraseJoint (k : Z)
| eraseCollision (k : Z)
| eraseLink (k : Z)
| eraseModel (k : Z).

#[global] Instance Action_eq_dec : EqDecision Action.
Proof. solve_decision. Defined.

(** Modelled from the spec: [removeConstraint] of the native library (World
    Adapter, section 4.3) detaches the constraint from the world and does
    nothing when it was not attached. *)
Definition detachConstraint (h : Z) (w : WorldInfo.t) : WorldInfo.t :=
  WorldInfo.mk (WorldInfo.name w) (WorldInfo.collisionConfiguration w)
    (WorldInfo.dispatcher w) (WorldInfo.broadphase w) (WorldInfo.solver w)
    (mkNativeWorld (rigidBodies (WorldInfo.world w))
                   (constraints (WorldInfo.world w) ∖ {[h]})).

(** Modelled from the spec: [removeRigidBody] of the native library (World
    Adapter, section 4.3) detaches the body from the world and does nothing
    when it was not attached. *)
Definition detachRigidBody (h : Z) (w : WorldInfo.t) : WorldInfo.t :=
  WorldInfo.mk (WorldInfo.name w) (WorldInfo.collisionConfiguration w)
    (WorldInfo.dispatcher w) (WorldInfo.broadphase w) (WorldInfo.solver w)
    (mkNativeWorld (rigidBodies (WorldInfo.world w) ∖ {[h]})
                   (constraints (WorldInfo.world w))).

(** The effect of a write.  [bulletWorld] is the shared pointer
    [worlds.at(id)->world], named by [id]: a call on it changes the native
    world held by the world record [id].  [erase] of a key that is not in
    the map does nothing. *)
Definition apply (a : Action) (s : EntityStore) : EntityStore :=
  match a with
  | removeConstraint bw h =>
      mkStore (alter (detachConstraint h) bw (worlds s)) (models s) (links s)
              (collisions s) (joints s) (childIdToParentId s)
  | removeRigidBody bw h =>
      mkStore (alter (detachRigidBody h) bw (worlds s)) (models s) (links s)
              (collisions s) (joints s) (childIdToParentId s)
  | eraseChildIdToParentId k =>
      mkStore (worlds s) (models s) (links s) (collisions s) (joints s)
              (delete k (childIdToParentId s))
  | eraseJoint k =>
      mkStore (worlds s) (models s) (links s) (collisions s)
              (delete k (joints s)) (childIdToParentId s)
  | eraseCollision k =>
      mkStore (worlds s) (models s) (links s) (delete k (collisions s))
              (joints s) (childIdToParentId s)
  | eraseLink k =>
      mkStore (worlds s) (models s) (delete k (links s)) (collisions s)
              (joints s) (childIdToParentId s)
  | eraseModel k =>
      mkStore (worlds s) (delete k (models s)) (links s) (collisions s)
              (joints s) (childIdToParentId s)
  end.

(** The store after a sequence of writes. *)
Definition run (tr : list Action) (s : EntityStore) : EntityStore :=
  foldl (λ s a, apply a s) s tr.

(** ** The monad of the member functions

    A member function reads and writes the store, may leave through
    [std::out_of_range] (thrown by [unordered_map::at]) or through the
    dereference of a null pointer (what [operator[]] inserts for a missing
    key), and its writes are recorded in order.  A fault carries the store
    and the writes as they were before the faulting statement. *)
Inductive Fault := out_of_range | null_dereference.

Inductive Result (A : Type) :=
| Done (a : A) (s : EntityStore) (tr : list Action)
| Faulted (f : Fault) (s : EntityStore) (tr : list Action).
Arguments Done {A} a s tr.
Arguments Faulted {A} f s tr.

Definition M (A : Type) : Type := EntityStore → list Action → Result A.

Definition ret {A} (a : A) : M A := λ s tr, Done a s tr.

Definition bind {A B} (m : M A) (f : A → M B) : M B :=
  λ s tr, match m s tr with
          | Done a s' tr' => f a s' tr'
          | Faulted e s' tr' => Faulted e s' tr'
          end.

Definition get : M EntityStore := λ s tr, Done s s tr.

Definition act (a : Action) : M unit := λ s tr, Done tt (apply a s) (tr ++ [a]).

Definition throw {A} (e : Fault) : M A := λ s tr, Faulted e s tr.

Declare Scope M_scope.
Delimit Scope M_scope with M.
Notation "'let*' x := m 'in' k" := (bind m (λ x, k))
  (at level 10, x name, m at level 100, k at level 200) : M_scope.
Notation "m ;;; k" := (bind m (λ _, k))
  (at level 100, k at level 200, right associativity) : M_scope.
Local Open Scope M_scope.

(** [this->links[k]] followed by [->]: the record when [k] is present; for a
    missing key [operator[]] inserts a null pointer and the dereference is
    undefined behaviour.  The link map of this model holds records only, so
    the inserted null entry is not represented: the store carried by a
    [null_dereference] fault is the store before that insertion, and nothing
    below is stated about the link map at such a fault. *)
Definition links_subscript (k : Z) : M LinkInfo.t :=
  λ s tr, match links s !! k with
          | Some l => Done l s tr
          | None => Faulted null_dereference s tr
          end.

(** ** Identity/index registry

    [idToIndexInContainer] and [indexInContainerToId] are member functions of
    the base class; the removal code is stated over any implementation. *)
Class Registry := {
  idToIndexInContainer : EntityStore → Z → Z;
  indexInContainerToId : EntityStore → Z → Z → Z
}.

Section Removal.
Context {registry : Registry}.

(** The three scans of [RemoveModelByIndex].  A scan visits the entries its
    map had when the scan began, once each, and erases the entry it stands
    on.  The iteration order of [std::unordered_map] is unspecified; the
    order taken here is that of [map_to_list]. *)
Fixpoint jointLoop (bulletWorld _modelIndex : Z)
    (entries : list (Z * JointInfo.t)) : M unit :=
  match entries with
  | [] => ret tt
  | (first, jointInfo) :: rest =>
      let* childLinkInfo := links_subscript (JointInfo.childLinkId jointInfo) in
      if LinkInfo.model childLinkInfo =? _modelIndex then
        act (removeConstraint bulletWorld (JointInfo.joint jointInfo)) ;;;
        act (eraseChildIdToParentId first) ;;;
        act (eraseJoint first) ;;;
        jointLoop bulletWorld _modelIndex rest
      else jointLoop bulletWorld _modelIndex rest
  end.

Fixpoint collisionLoop (_modelIndex : Z)
    (entries : list (Z * CollisionInfo.t)) : M unit :=
  match entries with
  | [] => ret tt
  | (first, collisionInfo) :: rest =>
      if CollisionInfo.model collisionInfo =? _modelIndex then
        act (eraseChildIdToParentId first) ;;;
        act (eraseCollision first) ;;;
        collisionLoop _modelIndex rest
      else collisionLoop _modelIndex rest
  end.

Fixpoint linkLoop (bulletWorld _modelIndex : Z)
    (entries : list (Z * LinkInfo.t)) : M unit :=
  match entries with
  | [] => ret tt
  | (first, linkInfo) :: rest =>
      if LinkInfo.model linkInfo =? _modelIndex then
        act (removeRigidBody bulletWorld (LinkInfo.link linkInfo)) ;;;
        act (eraseChildIdToParentId first) ;;;
        act (eraseLink first) ;;;
        linkLoop bulletWorld _modelIndex rest
      else linkLoop bulletWorld _modelIndex rest
  end.

Definition RemoveModelByIndex (_worldID _modelIndex : Z) : M bool :=
  let* this := get in
  let _modelEntity := indexInContainerToId this _worldID _modelIndex in
  match models this !! _modelEntity with
  | None => ret false
  | Some model =>
      match worlds this !! ModelInfo.world model with
      | None => throw out_of_range
      | Some _ =>
          let bulletWorld := ModelInfo.world model in
          (let* this := get in
           jointLoop bulletWorld _modelIndex (map_to_list (joints this))) ;;;
          (let* this := get in
           collisionLoop _modelIndex (map_to_list (collisions this))) ;;;
          (let* this := get in
           linkLoop bulletWorld _modelIndex (map_to_list (links this))) ;;;
          act (eraseModel _modelEntity) ;;;
          act (eraseChildIdToParentId _modelIndex) ;;;
          ret true
      end
  end.

Definition RemoveModel (_modelID : Z) : M bool :=
  let* this := get in
  match models this !! _modelID with
  | None => ret false
  | Some model =>
      let worldID := ModelInfo.world model in
      let modelIndex := idToIndexInContainer this _modelID in
      RemoveModelByIndex worldID modelIndex
  end.

Definition ModelRemoved (this : EntityStore) (_modelID : Z) : bool :=
  bool_decide (models this !! _modelID = None).

(** The name scan of [RemoveModelByName]: the pair [(found, entity)] when the
    loop is left.  It is run over the model map in the order of
    [map_to_list]; which of several models with the same name comes first in
    a [std::unordered_map] is unspecified. *)
Fixpoint scanModels (_modelName : string)
    (entries : list (Z * ModelInfo.t)) : bool * Z :=
  match entries with
  | [] => (false, 0)
  | (first, modelInfo) :: rest =>
      if String.eqb (ModelInfo.name modelInfo) _modelName then (true, first)
      else scanModels _modelName rest
  end.

Definition RemoveModelByName (_worldID : Z) (_modelName : string) : M bool :=
  let* this := get in
  let '(found, entity) := scanModels _modelName (map_to_list (models this)) in
  if found then
    let modelIndex := idToIndexInContainer this entity in
    RemoveModelByIndex _worldID modelIndex
  else ret false.

End Removal.

(** ** The registry kept in [childIdToParentId] *)

(** Modelled from the spec: the position of an identity within its owner's
    enumeration (Identity/Index Registry, section 4.1).  The children of
    [parent] are the keys that the child-to-parent map sends to [parent],
    enumerated by ascending identity (the order in which identities are
    handed out); the position of [id] is the number of children below it. *)
Definition positionAmongChildren (aux : gmap Z Z) (parent id : Z) : Z :=
  Z.of_nat (length (filter (λ kp : Z * Z, kp.1 < id ∧ kp.2 = parent)
                           (map_to_list aux))).

(** Modelled from the spec: [idToIndexInContainer] of the Identity/Index
    Registry (section 4.1), declared in the base class and not part of this
    file.  The index of an identity is its position among the children of
    its parent; the sentinel [-1] when the identity has no parent entry. *)
Definition aux_idToIndexInContainer (this : EntityStore) (_id : Z) : Z :=
  match childIdToParentId this !! _id with
  | Some parent => positionAmongChildren (childIdToParentId this) parent _id
  | None => size_t_max
  end.

(** Modelled from the spec: [indexInContainerToId] of the Identity/Index
    Registry (section 4.1), declared in the base class and not part of this
    file.  The identity at an index is the child of the container at that
    position; the sentinel [-1] when the container has no such child. *)
Definition aux_indexInContainerToId (this : EntityStore)
    (_containerId _index : Z) : Z :=
  match filter (λ kp : Z * Z, kp.2 = _containerId ∧
                  positionAmongChildren (childIdToParentId this)
                                        _containerId kp.1 = _index)
               (map_to_list (childIdToParentId this)) with
  | kp :: _ => kp.1
  | [] => size_t_max
  end.

#[global] Instance auxRegistry : Registry := {
  idToIndexInContainer := aux_idToIndexInContainer;
  indexInContainerToId := aux_indexInContainerToId
}.

(** ** A worked store

    One world [W = 0] holding model [M1 = 1] (links [L1 = 2] and [L2 = 3],
    collision [C1 = 4] on [L1], joint [J1 = 5] from [L1] to [L2]) and model
    [M2 = 6] (link [L3 = 7]).  Handles of native bodies and constraints are
    the identities plus 100.  Every body and the constraint are attached, and
    every identity has its entry in the child-to-parent map; the world, which
    has no owner, has the sentinel as its parent. *)
Definition W : Z := 0.
Definition M1 : Z := 1.
Definition L1 : Z := 2.
Definition L2 : Z := 3.
Definition C1 : Z := 4.
Definition J1 : Z := 5.
Definition M2 : Z := 6.
Definition L3 : Z := 7.

Definition scenarioWorld : WorldInfo.t :=
  WorldInfo.mk "world" 1000 1001 1002 1003
    (mkNativeWorld {[102; 103; 107]} {[105]}).

Definition scenario : EntityStore :=
  mkStore
    {[ W := scenarioWorld ]}
    {[ M1 := ModelInfo.mk "m1" W; M2 := ModelInfo.mk "m2" W ]}
    {[ L1 := LinkInfo.mk M1 102; L2 := LinkInfo.mk M1 103;
       L3 := LinkInfo.mk M2 107 ]}
    {[ C1 := CollisionInfo.mk M1 ]}
    {[ J1 := JointInfo.mk 105 L2 L1 ]}
    {[ W := size_t_max; M1 := W; L1 := M1; L2 := M1; C1 := L1; J1 := M1;
       M2 := W; L3 := M2 ]}.

(** The writes that [RemoveModel M1] and [RemoveModel M2] perform on
    [scenario]. *)
Definition writesM1 : list Action := [eraseModel M1; eraseChildIdToParentId 0].

Definition writesM2 : list Action :=
  [removeConstraint W 105; eraseChildIdToParentId J1; eraseJoint J1;
   eraseChildIdToParentId C1; eraseCollision C1;
   removeRigidBody W 103; eraseChildIdToParentId L2; eraseLink L2;
   removeRigidBody W 102; eraseChildIdToParentId L1; eraseLink L1;
   eraseModel M2; eraseChildIdToParentId 1].

(** Two worlds [0] and [1], each holding one model: model [2] named "a" in
    world [0] and model [3] named "b" in world [1]. *)
Definition twoWorlds : EntityStore :=
  mkStore
    {[ 0 := WorldInfo.mk "w0" 1000 1001 1002 1003 (mkNativeWorld ∅ ∅);
       1 := WorldInfo.mk "w1" 2000 2001 2002 2003 (mkNativeWorld ∅ ∅) ]}
    {[ 2 := ModelInfo.mk "a" 0; 3 := ModelInfo.mk "b" 1 ]}
    ∅ ∅ ∅
    {[ 0 := size_t_max; 1 := size_t_max; 2 := 0; 3 := 1 ]}.

(** ** Vocabulary of the properties *)

(** Attachment of a native handle to the dynamics world of world [bw]. *)
Definition constraintAttached (s : EntityStore) (bw h : Z) : bool :=
  match worlds s !! bw with
  | Some w => bool_decide (h ∈ constraints (WorldInfo.world w))
  | None => false
  end.

Definition rigidBodyAttached (s : EntityStore) (bw h : Z) : bool :=
  match worlds s !! bw with
  | Some w => bool_decide (h ∈ rigidBodies (WorldInfo.world w))
  | None => false
  end.

(** Every joint's child link is a key of the link map. *)
Definition jointsResolve (s : EntityStore) : Prop :=
  ∀ k j, joints s !! k = Some j → is_Some (links s !! JointInfo.childLinkId j).

#[global] Instance jointsResolve_dec s : Decision (jointsResolve s).
Proof.
  change (Decision (map_Forall
            (λ _ j, is_Some (links s !! JointInfo.childLinkId j)) (joints s))).
  apply _.
Defined.

(** The writes of each scan, as a function of the entries it visits. *)
Definition jointBlock (bw idx : Z) (lk : gmap Z LinkInfo.t)
    (e : Z * JointInfo.t) : list Action :=
  match lk !! JointInfo.childLinkId e.2 with
  | Some l =>
      if LinkInfo.model l =? idx then
        [removeConstraint bw (JointInfo.joint e.2);
         eraseChildIdToParentId e.1; eraseJoint e.1]
      else []
  | None => []
  end.

Definition collisionBlock (idx : Z) (e : Z * CollisionInfo.t) : list Action :=
  if CollisionInfo.model e.2 =? idx then
    [eraseChildIdToParentId e.1; eraseCollision e.1]
  else [].

Definition linkBlock (bw idx : Z) (e : Z * LinkInfo.t) : list Action :=
  if LinkInfo.model e.2 =? idx then
    [removeRigidBody bw (LinkInfo.link e.2);
     eraseChildIdToParentId e.1; eraseLink e.1]
  else [].

Definition jointWrites (bw idx : Z) (s : EntityStore) : list Action :=
  flat_map (jointBlock bw idx (links s)) (map_to_list (joints s)).

Definition collisionWrites (idx : Z) (s : EntityStore) : list Action :=
  flat_map (collisionBlock idx) (map_to_list (collisions s)).

Definition linkWrites (bw idx : Z) (s : EntityStore) : list Action :=
  flat_map (linkBlock bw idx) (map_to_list (links s)).

Definition modelWrites (e idx : Z) : list Action :=
  [eraseModel e; eraseChildIdToParentId idx].

Definition cascadeWrites (bw e idx : Z) (s : EntityStore) : list Action :=
  jointWrites bw idx s ++ collisionWrites idx s ++ linkWrites bw idx s
  ++ modelWrites e idx.

(** Which scan a write can belong to. *)
Definition isJointWrite (a : Action) : Prop :=
  match a with
  | removeConstraint _ _ | eraseChildIdToParentId _ | eraseJoint _ => True
  | _ => False
  end.

Definition isCollisionWrite (a : Action) : Prop :=
  match a with
  | eraseChildIdToParentId _ | eraseCollision _ => True
  | _ => False
  end.

Definition isLinkWrite (a : Action) : Prop :=
  match a with
  | removeRigidBody _ _ | eraseChildIdToParentId _ | eraseLink _ => True
  | _ => False
  end.

(** No record of the initial store [s0] is erased in [s] while its native
    counterpart is attached to the dynamics world of [bw]. *)
Definition noErasedWhileAttached (s0 : EntityStore) (bw : Z)
    (s : EntityStore) : Prop :=
  (∀ k j, joints s0 !! k = Some j → joints s !! k = None →
          constraintAttached s bw (JointInfo.joint j) = false) ∧
  (∀ k l, links s0 !! k = Some l → links s !! k = None →
          rigidBodyAttached s bw (LinkInfo.link l) = false).

(** In the writes [past] so far, every erased joint or link record of the
    initial store [s0] has had its native counterpart detached from the
    dynamics world of [bw]. *)
Definition detachFirst (s0 : EntityStore) (bw : Z) (past : list Action) : Prop :=
  (∀ k j, eraseJoint k ∈ past → joints s0 !! k = Some j →
          removeConstraint bw (JointInfo.joint j) ∈ past) ∧
  (∀ k l, eraseLink k ∈ past → links s0 !! k = Some l →
          removeRigidBody bw (LinkInfo.link l) ∈ past).

(** [Q] holds of the writes past so far at every point of performing [tr]
    after [past]. *)
Fixpoint along (Q : list Action → Prop) (past tr : list Action) : Prop :=
  Q past ∧
  match tr with
  | [] => True
  | a :: tr' => along Q (past ++ [a]) tr'
  end.

(** The removal entry points. *)
Inductive Removal :=
| removeModel (m : Z)
| removeModelByIndex (w i : Z)
| removeModelByName (w : Z) (n : string).

Definition call {registry : Registry} (c : Removal) : M bool :=
  match c with
  | removeModel m => RemoveModel m
  | removeModelByIndex w i => RemoveModelByIndex w i
  | removeModelByName w n => RemoveModelByName w n
  end.

(** [GetWorldCount]: the size of the world map; the engine argument is not
    read. *)
Definition GetWorldCount (this : EntityStore) (_engineID : Z) : Z :=
  Z.of_nat (size (worlds this)).

(** What a world record holds besides its native world. *)
Definition worldSettings (w : WorldInfo.t) : string * Z * Z * Z * Z :=
  (WorldInfo.name w, WorldInfo.collisionConfiguration w,
   WorldInfo.dispatcher w, WorldInfo.broadphase w, WorldInfo.solver w).

(** Key [k] held a link, collision or joint record in [s] that is no longer
    in [s']. *)
Definition erasedRecord (s s' : EntityStore) (k : Z) : Prop :=
  (is_Some (links s !! k) ∧ links s' !! k = None) ∨
  (is_Some (collisions s !! k) ∧ collisions s' !! k = None) ∨
  (is_Some (joints s !! k) ∧ joints s' !! k = None).

(** An outcome with the writes made before the call put in front. *)
Definition shift {A} (tr0 : list Action) (r : Result A) : Result A :=
  match r with
  | Done a s tr => Done a s (tr0 ++ tr)
  | Faulted f s tr => Faulted f s (tr0 ++ tr)
  end.

(** The world and the index with which a removal call enters
    [RemoveModelByIndex], when it does. *)
Definition callTarget {registry : Registry} (c : Removal) (s : EntityStore)
    : option (Z * Z) :=
  match c with
  | removeModel m =>
      match models s !! m with
      | Some model => Some (ModelInfo.world model, idToIndexInContainer s m)
      | None => None
      end
  | removeModelByIndex w i => Some (w, i)
  | removeModelByName w n =>
      match scanModels n (map_to_list (models s)) with
      | (true, entity) => Some (w, idToIndexInContainer s entity)
      | (false, _) => None
      end
  end.

(** Two worlds [0] and [3]: world [0] holds model [1] with link [2], whose
    body [102] is attached to the native world of world [0]; world [3] holds
    models [4] and [5]. *)
Definition crossWorlds : EntityStore :=
  mkStore
    {[ 0 := WorldInfo.mk "w0" 1000 1001 1002 1003 (mkNativeWorld {[102]} ∅);
       3 := WorldInfo.mk "w3" 3000 3001 3002 3003 (mkNativeWorld ∅ ∅) ]}
    {[ 1 := ModelInfo.mk "m1" 0; 4 := ModelInfo.mk "m4" 3;
       5 := ModelInfo.mk "m5" 3 ]}
    {[ 2 := LinkInfo.mk 1 102 ]}
    ∅ ∅
    {[ 0 := size_t_max; 1 := 0; 2 := 1; 3 := size_t_max; 4 := 3; 5 := 3 ]}.

(** The writes that [RemoveModel 5] performs on [crossWorlds]. *)
Definition writesCross : list Action :=
  [removeRigidBody 3 102; eraseChildIdToParentId 2; eraseLink 2;
   eraseModel 5; eraseChildIdToParentId 1].


(** Every model's world is a key of the world map. *)
Definition modelsResolve (s : EntityStore) : Prop :=
  ∀ m model, models s !! m = Some model →
             is_Some (worlds s !! ModelInfo.world model).

#[global] Instance modelsResolve_dec s : Decision (modelsResolve s).
Proof.
  change (Decision (map_Forall
            (λ _ model, is_Some (worlds s !! ModelInfo.world model))
            (models s))).
  apply _.
Defined.

(** A caller making removal calls one after the other on the same plugin
    object, collecting the return values. *)
Fixpoint callAll {registry : Registry} (cs : list Removal) : M (list bool) :=
  match cs with
  | [] => ret []
  | c :: cs' =>
      let* b := call c in
      let* bs := callAll cs' in
      ret (b :: bs)
  end.

(** [scenario] with a second joint [J2 = 8] whose child link is [L3], owned
    by [M2], and whose parent link is [L1], owned by [M1]. *)
Definition J2 : Z := 8.

Definition scenarioCross : EntityStore :=
  mkStore
    {[ W := WorldInfo.mk "world" 1000 1001 1002 1003
              (mkNativeWorld {[102; 103; 107]} {[105; 108]}) ]}
    (models scenario) (links scenario) (collisions scenario)
    (<[ J2 := JointInfo.mk 108 L3 L1 ]> (joints scenario))
    (<[ J2 := M2 ]> (childIdToParentId scenario)).

(** One world [0] with model [1] and its link [2], and a joint [3] whose
    child link [9] is not in the link map. *)
Definition danglingStore : EntityStore :=
  mkStore
    {[ 0 := WorldInfo.mk "world" 1000 1001 1002 1003
              (mkNativeWorld {[102]} {[103]}) ]}
    {[ 1 := ModelInfo.mk "m" 0 ]}
    {[ 2 := LinkInfo.mk 1 102 ]}
    ∅
    {[ 3 := JointInfo.mk 103 9 2 ]}
    {[ 0 := size_t_max; 1 := 0; 2 := 1; 3 := 1 ]}.

(** ** Writes and their effect on each map *)

Lemma run_app t1 t2 s : run (t1 ++ t2) s = run t2 (run t1 s).
Proof. apply foldl_app. Qed.

Lemma run_snoc t a s : run (t ++ [a]) s = apply a (run t s).
Proof. rewrite run_app. reflexivity. Qed.

Lemma erased_snoc {A} (x a : Action) (tr : list Action) (o : option A) :
  (if decide (x ∈ tr ++ [a]) then None else o) =
  if decide (a = x) then None else if decide (x ∈ tr) then None else o.
Proof.
  destruct (decide (a = x)) as [->|Hne].
  - rewrite decide_True; [done|]. apply elem_of_app. right. by left.
  - apply decide_ext. rewrite elem_of_app, list_elem_of_singleton.
    split; [intros [?|?]; [assumption|congruence] | tauto].
Qed.

(** A key is absent after a run exactly when the run erased it or it was
    absent before: one induction from the last write, shared by the maps. *)
Ltac erased_by_run tr :=
  let a := fresh "a" in
  let IH := fresh "IH" in
  let E := fresh "E" in
  induction tr as [|a tr IH] using rev_ind;
  [ case_decide as E; [by apply elem_of_nil in E | done]
  | rewrite run_snoc, erased_snoc, <- IH; clear IH;
    destruct a; simpl; try reflexivity;
    case_decide; simplify_eq;
    [ apply lookup_delete_eq | rewrite lookup_delete_ne; congruence ] ].

Lemma models_run tr s k :
  models (run tr s) !! k =
    if decide (eraseModel k ∈ tr) then None else models s !! k.
Proof.
  erased_by_run tr.
Qed.

Lemma links_run tr s k :
  links (run tr s) !! k =
    if decide (eraseLink k ∈ tr) then None else links s !! k.
Proof.
  erased_by_run tr.
Qed.

Lemma collisions_run tr s k :
  collisions (run tr s) !! k =
    if decide (eraseCollision k ∈ tr) then None else collisions s !! k.
Proof.
  erased_by_run tr.
Qed.

Lemma joints_run tr s k :
  joints (run tr s) !! k =
    if decide (eraseJoint k ∈ tr) then None else joints s !! k.
Proof.
  erased_by_run tr.
Qed.

Lemma childIdToParentId_run tr s k :
  childIdToParentId (run tr s) !! k =
    if decide (eraseChildIdToParentId k ∈ tr) then None
    else childIdToParentId s !! k.
Proof.
  erased_by_run tr.
Qed.

(** What the writes of one scan leave alone. *)
Lemma run_joint_writes tr s :
  Forall isJointWrite tr →
  links (run tr s) = links s ∧ collisions (run tr s) = collisions s ∧
  models (run tr s) = models s.
Proof.
  induction tr as [|a tr IH] using rev_ind; [done|].
  rewrite Forall_app, Forall_singleton, run_snoc.
  intros [Htr Ha]. destruct (IH Htr) as (? & ? & ?).
  destruct a; simpl in *; tauto.
Qed.

Lemma run_collision_writes tr s :
  Forall isCollisionWrite tr →
  links (run tr s) = links s ∧ joints (run tr s) = joints s ∧
  models (run tr s) = models s ∧ worlds (run tr s) = worlds s.
Proof.
  induction tr as [|a tr IH] using rev_ind; [done|].
  rewrite Forall_app, Forall_singleton, run_snoc.
  intros [Htr Ha]. destruct (IH Htr) as (? & ? & ? & ?).
  destruct a; simpl in *; tauto.
Qed.

Lemma run_link_writes tr s :
  Forall isLinkWrite tr →
  joints (run tr s) = joints s ∧ collisions (run tr s) = collisions s ∧
  models (run tr s) = models s.
Proof.
  induction tr as [|a tr IH] using rev_ind; [done|].
  rewrite Forall_app, Forall_singleton, run_snoc.
  intros [Htr Ha]. destruct (IH Htr) as (? & ? & ?).
  destruct a; simpl in *; tauto.
Qed.

Lemma Forall_flat_map_blocks {A} (P : Action → Prop) (f : A → list Action) es :
  (∀ e, Forall P (f e)) → Forall P (flat_map f es).
Proof.
  intros Hf. induction es as [|e es IH]; simpl; [constructor|].
  apply Forall_app. split; [apply Hf | apply IH].
Qed.

Lemma jointBlocks_are bw idx lk es :
  Forall isJointWrite (flat_map (jointBlock bw idx lk) es).
Proof.
  apply Forall_flat_map_blocks. intros [k j]. unfold jointBlock. simpl.
  destruct (lk !! _) as [l|]; [|constructor].
  destruct (_ =? _); repeat constructor.
Qed.

Lemma collisionBlocks_are idx es :
  Forall isCollisionWrite (flat_map (collisionBlock idx) es).
Proof.
  apply Forall_flat_map_blocks. intros [k c]. unfold collisionBlock. simpl.
  destruct (_ =? _); repeat constructor.
Qed.

Lemma linkBlocks_are bw idx es :
  Forall isLinkWrite (flat_map (linkBlock bw idx) es).
Proof.
  apply Forall_flat_map_blocks. intros [k l]. unfold linkBlock. simpl.
  destruct (_ =? _); repeat constructor.
Qed.

(** ** The scans as functions of the store they start from *)

Lemma jointLoop_Done bw idx es s tr :
  (∀ e, e ∈ es → is_Some (links s !! JointInfo.childLinkId e.2)) →
  jointLoop bw idx es s tr =
    Done tt (run (flat_map (jointBlock bw idx (links s)) es) s)
            (tr ++ flat_map (jointBlock bw idx (links s)) es).
Proof.
  revert s tr. induction es as [|[k j] es IH]; intros s tr Hes.
  - simpl. unfold ret. by rewrite app_nil_r.
  - destruct (Hes (k, j)) as [l Hl]; [by left|]. simpl in Hl.
    assert (Hrest : ∀ e, e ∈ es →
              is_Some (links s !! JointInfo.childLinkId e.2))
      by (intros e He; apply Hes; by right).
    simpl. unfold bind at 1, links_subscript at 1, jointBlock at 1 3.
    simpl. rewrite Hl.
    destruct (LinkInfo.model l =? idx).
    + unfold bind, act. rewrite IH by exact Hrest.
      simpl. by rewrite <- !app_assoc.
    + by rewrite IH.
Qed.

Lemma jointLoop_Faulted bw idx es s tr e :
  e ∈ es → links s !! JointInfo.childLinkId e.2 = None →
  ∃ s' tr', jointLoop bw idx es s tr = Faulted null_dereference s' tr'.
Proof.
  revert s tr. induction es as [|[k j] es IH]; intros s tr He Hnone.
  - by apply elem_of_nil in He.
  - simpl. unfold bind at 1, links_subscript at 1.
    destruct (links s !! JointInfo.childLinkId j) as [l|] eqn:Hl; [|by eauto].
    apply elem_of_cons in He as [->|He]; [simpl in Hnone; congruence|].
    destruct (LinkInfo.model l =? idx).
    + unfold bind, act. apply IH; [done|]. exact Hnone.
    + by apply IH.
Qed.

Lemma collisionLoop_Done idx es s tr :
  collisionLoop idx es s tr =
    Done tt (run (flat_map (collisionBlock idx) es) s)
            (tr ++ flat_map (collisionBlock idx) es).
Proof.
  revert s tr. induction es as [|[k c] es IH]; intros s tr.
  - simpl. unfold ret. by rewrite app_nil_r.
  - simpl. unfold collisionBlock at 1 3. simpl.
    destruct (CollisionInfo.model c =? idx).
    + unfold bind, act. rewrite IH. simpl. by rewrite <- !app_assoc.
    + by rewrite IH.
Qed.

Lemma linkLoop_Done bw idx es s tr :
  linkLoop bw idx es s tr =
    Done tt (run (flat_map (linkBlock bw idx) es) s)
            (tr ++ flat_map (linkBlock bw idx) es).
Proof.
  revert s tr. induction es as [|[k l] es IH]; intros s tr.
  - simpl. unfold ret. by rewrite app_nil_r.
  - simpl. unfold linkBlock at 1 3. simpl.
    destruct (LinkInfo.model l =? idx).
    + unfold bind, act. rewrite IH. simpl. by rewrite <- !app_assoc.
    + by rewrite IH.
Qed.

Section RemovalProperties.
Context {registry : Registry}.

(** ** The four ways [RemoveModelByIndex] can end *)

Lemma RemoveModelByIndex_absent w idx s tr :
  models s !! indexInContainerToId s w idx = None →
  RemoveModelByIndex w idx s tr = Done false s tr.
Proof.
  intros Hm. unfold RemoveModelByIndex, bind at 1, get at 1. by rewrite Hm.
Qed.

Lemma RemoveModelByIndex_no_world w idx s tr model :
  models s !! indexInContainerToId s w idx = Some model →
  worlds s !! ModelInfo.world model = None →
  RemoveModelByIndex w idx s tr = Faulted out_of_range s tr.
Proof.
  intros Hm Hw. unfold RemoveModelByIndex, bind at 1, get at 1.
  by rewrite Hm, Hw.
Qed.

Lemma RemoveModelByIndex_dangling w idx s tr model k j :
  models s !! indexInContainerToId s w idx = Some model →
  is_Some (worlds s !! ModelInfo.world model) →
  joints s !! k = Some j → links s !! JointInfo.childLinkId j = None →
  ∃ s' tr', RemoveModelByIndex w idx s tr = Faulted null_dereference s' tr'.
Proof.
  intros Hm [wi Hw] Hj Hl. unfold RemoveModelByIndex, bind at 1, get at 1.
  rewrite Hm, Hw. unfold bind at 1 2, get at 1.
  destruct (jointLoop_Faulted (ModelInfo.world model) idx
              (map_to_list (joints s)) s tr (k, j)) as (s' & tr' & ->);
    [by apply elem_of_map_to_list | done | by eauto].
Qed.

Lemma RemoveModelByIndex_found w idx s tr model :
  models s !! indexInContainerToId s w idx = Some model →
  is_Some (worlds s !! ModelInfo.world model) →
  jointsResolve s →
  RemoveModelByIndex w idx s tr =
    Done true
      (run (cascadeWrites (ModelInfo.world model)
              (indexInContainerToId s w idx) idx s) s)
      (tr ++ cascadeWrites (ModelInfo.world model)
               (indexInContainerToId s w idx) idx s).
Proof.
  intros Hm [wi Hw] Hres.
  unfold RemoveModelByIndex, bind at 1, get at 1. rewrite Hm, Hw.
  unfold bind at 1 2, get at 1.
  rewrite jointLoop_Done
    by (intros [k j] He%elem_of_map_to_list; by apply (Hres k j)).
  fold (jointWrites (ModelInfo.world model) idx s).
  pose proof (run_joint_writes (jointWrites (ModelInfo.world model) idx s) s
                (jointBlocks_are _ _ _ _)) as (HJl & HJc & _).
  unfold bind at 1 2, get at 1. rewrite collisionLoop_Done, HJc.
  fold (collisionWrites idx s).
  pose proof (run_collision_writes (collisionWrites idx s)
                (run (jointWrites (ModelInfo.world model) idx s) s)
                (collisionBlocks_are _ _)) as (HCl & _).
  unfold bind at 1 2, get at 1. rewrite linkLoop_Done, HCl, HJl.
  fold (linkWrites (ModelInfo.world model) idx s).
  unfold bind, act, ret. unfold cascadeWrites, modelWrites.
  rewrite !run_app. simpl. by rewrite <- !app_assoc.
Qed.

Lemma RemoveModelByIndex_Done w idx s tr b s' tr' :
  RemoveModelByIndex w idx s tr = Done b s' tr' →
  (b = false ∧ s' = s ∧ tr' = tr ∧
   models s !! indexInContainerToId s w idx = None) ∨
  (b = true ∧ jointsResolve s ∧
   ∃ model, models s !! indexInContainerToId s w idx = Some model ∧
            is_Some (worlds s !! ModelInfo.world model)).
Proof.
  intros Hrun.
  destruct (models s !! indexInContainerToId s w idx) as [model|] eqn:Hm.
  - destruct (worlds s !! ModelInfo.world model) as [wi|] eqn:Hw.
    + assert (Hres : jointsResolve s).
      { intros k j Hj.
        destruct (links s !! JointInfo.childLinkId j) as [l|] eqn:Hl; [eauto|].
        destruct (RemoveModelByIndex_dangling w idx s tr model k j)
          as (? & ? & Hf); eauto. congruence. }
      right. rewrite (RemoveModelByIndex_found w idx s tr model) in Hrun
        by eauto.
      split; [congruence|]. eauto.
    + rewrite (RemoveModelByIndex_no_world _ _ _ _ model) in Hrun; done.
  - rewrite RemoveModelByIndex_absent in Hrun by done.
    left. by simplify_eq.
Qed.

Lemma cascade_models bw e idx s :
  models (run (cascadeWrites bw e idx s) s) = delete e (models s).
Proof.
  unfold cascadeWrites, modelWrites. rewrite !run_app. simpl.
  pose proof (run_joint_writes (jointWrites bw idx s) s
                (jointBlocks_are _ _ _ _)) as (_ & _ & HJ).
  pose proof (run_collision_writes (collisionWrites idx s)
                (run (jointWrites bw idx s) s)
                (collisionBlocks_are _ _)) as (_ & _ & HC & _).
  pose proof (run_link_writes (linkWrites bw idx s)
                (run (collisionWrites idx s) (run (jointWrites bw idx s) s))
                (linkBlocks_are _ _ _)) as (_ & _ & HL).
  by rewrite HL, HC, HJ.
Qed.

(** ** The name scan *)

Lemma scanModels_none name es :
  (∀ e, e ∈ es → ModelInfo.name e.2 ≠ name) →
  scanModels name es = (false, 0).
Proof.
  induction es as [|[k model] es IH]; intros Hes; [done|].
  simpl. destruct (String.eqb_spec (ModelInfo.name model) name) as [Heq|_].
  - destruct (Hes (k, model)); [by left | done].
  - apply IH. intros e He. apply Hes. by right.
Qed.

Lemma scanModels_first name pre k model post :
  ModelInfo.name model = name →
  (∀ e, e ∈ pre → ModelInfo.name e.2 ≠ name) →
  scanModels name (pre ++ (k, model) :: post) = (true, k).
Proof.
  intros Hname. induction pre as [|[k' model'] pre IH]; intros Hpre; simpl.
  - by rewrite (proj2 (String.eqb_eq _ _) Hname).
  - destruct (String.eqb_spec (ModelInfo.name model') name) as [Heq|_].
    + destruct (Hpre (k', model')); [by left | done].
    + apply IH. intros e He. apply Hpre. by right.
Qed.

Lemma scanModels_unique name (ms : gmap Z ModelInfo.t) m model :
  ms !! m = Some model → ModelInfo.name model = name →
  (∀ m' model', ms !! m' = Some model' → ModelInfo.name model' = name →
                m' = m) →
  scanModels name (map_to_list ms) = (true, m).
Proof.
  intros Hm Hname Huniq.
  apply elem_of_map_to_list, list_elem_of_split in Hm as (pre & post & Heq).
  rewrite Heq. apply scanModels_first; [done|].
  intros [k' model'] He Hn. simpl in Hn.
  assert (k' = m) as ->.
  { apply (Huniq k' model'); [|done]. apply elem_of_map_to_list.
    rewrite Heq. apply elem_of_app. by left. }
  pose proof (NoDup_fst_map_to_list ms) as Hnd.
  rewrite Heq, fmap_app, fmap_cons in Hnd. simpl in Hnd.
  apply NoDup_app in Hnd as (_ & Hdisj & _).
  apply (Hdisj m); [|by left].
  apply list_elem_of_fmap. by exists (m, model').
Qed.

(** ** The entry points *)

Lemma RemoveModel_unfold m s tr :
  RemoveModel m s tr =
    match models s !! m with
    | None => Done false s tr
    | Some model =>
        RemoveModelByIndex (ModelInfo.world model) (idToIndexInContainer s m)
                           s tr
    end.
Proof. unfold RemoveModel, bind, get. by destruct (models s !! m). Qed.

Lemma RemoveModelByName_unfold w name s tr :
  RemoveModelByName w name s tr =
    match scanModels name (map_to_list (models s)) with
    | (true, entity) =>
        RemoveModelByIndex w (idToIndexInContainer s entity) s tr
    | (false, _) => Done false s tr
    end.
Proof.
  unfold RemoveModelByName, bind, get.
  by destruct (scanModels name (map_to_list (models s))) as [[|] entity].
Qed.

Lemma RemoveModelByIndex_cases w idx s tr :
  jointsResolve s →
  RemoveModelByIndex w idx s tr = Done false s tr ∨
  RemoveModelByIndex w idx s tr = Faulted out_of_range s tr ∨
  ∃ bw e, is_Some (models s !! e) ∧
    RemoveModelByIndex w idx s tr =
      Done true (run (cascadeWrites bw e idx s) s)
                (tr ++ cascadeWrites bw e idx s).
Proof.
  intros Hres.
  destruct (models s !! indexInContainerToId s w idx) as [model|] eqn:Hm.
  - destruct (worlds s !! ModelInfo.world model) as [wi|] eqn:Hw.
    + right. right.
      exists (ModelInfo.world model), (indexInContainerToId s w idx).
      split; [eauto|]. apply RemoveModelByIndex_found; eauto.
    + right. left. by apply (RemoveModelByIndex_no_world _ _ _ _ model).
  - left. by apply RemoveModelByIndex_absent.
Qed.

(** What holds of the failing path.  [RemoveModel] on an identity that is
    not a key of the model map returns false and leaves the whole store (the
    five maps, the child-to-parent map and the native worlds inside the world
    records) as it was, with no write performed.  More generally, for each
    of the three removal entry points: a call that returns false has
    performed no write and returns the store it was given; and on a store
    whose joints all resolve their child link a call either returns false
    with the store unchanged, or throws [std::out_of_range] before its first
    write, or returns true after the complete cascade of writes, the model
    record it resolved being erased. *)
Theorem not_found_is_atomic_noop :
  (∀ s m, models s !! m = None → RemoveModel m s [] = Done false s []) ∧
  (∀ s c s' tr, call c s [] = Done false s' tr → s' = s ∧ tr = []) ∧
  (∀ s c, jointsResolve s →
     call c s [] = Done false s [] ∨
     call c s [] = Faulted out_of_range s [] ∨
     ∃ bw e idx, is_Some (models s !! e) ∧
       call c s [] = Done true (run (cascadeWrites bw e idx s) s)
                               (cascadeWrites bw e idx s) ∧
       models (run (cascadeWrites bw e idx s) s) = delete e (models s)).
Proof.
  split; [|split].
  - intros s m Hm. by rewrite RemoveModel_unfold, Hm.
  - assert (Hidx : ∀ w idx s s' tr,
              RemoveModelByIndex w idx s [] = Done false s' tr →
              s' = s ∧ tr = []).
    { intros w idx s s' tr Hrun.
      apply RemoveModelByIndex_Done in Hrun as [(_ & ? & ? & _)|(? & _)];
        [done | discriminate]. }
    intros s [m|w i|w n] s' tr; simpl.
    + rewrite RemoveModel_unfold. destruct (models s !! m).
      * apply Hidx.
      * intros [= <- <-]. done.
    + apply Hidx.
    + rewrite RemoveModelByName_unfold.
      destruct (scanModels n (map_to_list (models s))) as [[|] entity].
      * apply Hidx.
      * intros [= <- <-]. done.
  - assert (Hidx : ∀ w idx s, jointsResolve s →
              RemoveModelByIndex w idx s [] = Done false s [] ∨
              RemoveModelByIndex w idx s [] = Faulted out_of_range s [] ∨
              ∃ bw e idx', is_Some (models s !! e) ∧
                RemoveModelByIndex w idx s [] =
                  Done true (run (cascadeWrites bw e idx' s) s)
                            (cascadeWrites bw e idx' s) ∧
                models (run (cascadeWrites bw e idx' s) s) =
                  delete e (models s)).
    { intros w idx s Hres.
      destruct (RemoveModelByIndex_cases w idx s [] Hres)
        as [?|[?|(bw & e & ? & ?)]]; [by left | by right; left |].
      right. right. exists bw, e, idx. split; [done|].
      split; [done | apply cascade_models]. }
    intros s [m|w i|w n] Hres; simpl.
    + rewrite RemoveModel_unfold. destruct (models s !! m); [|by left].
      by apply Hidx.
    + by apply Hidx.
    + rewrite RemoveModelByName_unfold.
      destruct (scanModels n (map_to_list (models s))) as [[|] entity];
        [|by left].
      by apply Hidx.
Qed.

(** Idempotence under a registry that round-trips.  For [m] present in the
    model map, on a store where the registry maps the index of [m] in its
    world back to [m], the world of [m] is a key of the world map and every
    joint resolves its child link: the first [RemoveModel m] returns true,
    [ModelRemoved m] is true afterwards, and a second [RemoveModel m]
    returns false and changes nothing. *)
Theorem removal_is_idempotent s m model :
  models s !! m = Some model →
  indexInContainerToId s (ModelInfo.world model) (idToIndexInContainer s m)
    = m →
  is_Some (worlds s !! ModelInfo.world model) →
  jointsResolve s →
  ∃ s1 tr, RemoveModel m s [] = Done true s1 tr ∧
           ModelRemoved s1 m = true ∧
           RemoveModel m s1 [] = Done false s1 [].
Proof.
  intros Hm Hround Hw Hres.
  exists (run (cascadeWrites (ModelInfo.world model) m
                 (idToIndexInContainer s m) s) s),
         (cascadeWrites (ModelInfo.world model) m
                 (idToIndexInContainer s m) s).
  assert (Hgone : models (run (cascadeWrites (ModelInfo.world model) m
                                 (idToIndexInContainer s m) s) s) !! m = None)
    by (rewrite cascade_models; apply lookup_delete_eq).
  split; [|split].
  - rewrite RemoveModel_unfold, Hm.
    rewrite (RemoveModelByIndex_found _ _ _ _ model);
      rewrite ?Hround; done.
  - unfold ModelRemoved. by apply bool_decide_eq_true.
  - by rewrite RemoveModel_unfold, Hgone.
Qed.


(** C9. The world argument is ignored by the name search.  The scan of
    [RemoveModelByName] selects the first model record, in the iteration
    order of the model map, whose name matches; nothing relates the world
    argument to the world that owns the selected model, so for every world
    argument the call goes on with the index of that model. *)
Theorem name_scan_ignores_world s name pre k model post :
  map_to_list (models s) = pre ++ (k, model) :: post →
  ModelInfo.name model = name →
  (∀ e, e ∈ pre → ModelInfo.name e.2 ≠ name) →
  ∀ w, scanModels name (map_to_list (models s)) = (true, k) ∧
       RemoveModelByName w name s [] =
         RemoveModelByIndex w (idToIndexInContainer s k) s [].
Proof.
  intros Heq Hname Hpre w.
  assert (Hscan : scanModels name (map_to_list (models s)) = (true, k))
    by (rewrite Heq; by apply scanModels_first).
  split; [done|]. by rewrite RemoveModelByName_unfold, Hscan.
Qed.

(** C10. Joint cleanup presupposes live child links.  The joint scan looks
    up the child link of every joint it visits before it tests which model
    the link belongs to.  When every joint's child link is a key of the link
    map, each lookup succeeds: the scan runs to its end and no removal by
    index ends in a null dereference.  The lookup is unconditional: a single
    joint whose child link is missing makes the scan fault, whatever index
    is being removed. *)
Theorem joint_scan_child_lookup s bw idx tr :
  (jointsResolve s →
     jointLoop bw idx (map_to_list (joints s)) s tr =
       Done tt (run (jointWrites bw idx s) s) (tr ++ jointWrites bw idx s) ∧
     ∀ w s' tr', RemoveModelByIndex w idx s tr ≠
                 Faulted null_dereference s' tr') ∧
  (∀ k j, joints s !! k = Some j →
          links s !! JointInfo.childLinkId j = None →
          ∃ s' tr', jointLoop bw idx (map_to_list (joints s)) s tr =
                    Faulted null_dereference s' tr').
Proof.
  split.
  - intros Hres. split.
    + apply jointLoop_Done.
      intros [k j] He%elem_of_map_to_list. by apply (Hres k j).
    + intros w s' tr' Hf.
      destruct (RemoveModelByIndex_cases w idx s tr Hres)
        as [?|[?|(? & ? & _ & ?)]]; congruence.
  - intros k j Hj Hl.
    apply (jointLoop_Faulted _ _ _ _ _ (k, j)); [|done].
    by apply elem_of_map_to_list.
Qed.

(** ** Order of the writes *)

Lemma along_head Q past tr : along Q past tr → Q past.
Proof. destruct tr; simpl; tauto. Qed.

Lemma along_app Q past t1 t2 :
  along Q past t1 → along Q (past ++ t1) t2 → along Q past (t1 ++ t2).
Proof.
  revert past. induction t1 as [|a t1 IH]; intros past H1 H2.
  - by rewrite app_nil_r in H2.
  - destruct H1 as [Hd H1]. simpl. split; [done|].
    apply IH; [done|]. by rewrite <- app_assoc.
Qed.

Lemma along_last Q past tr : along Q past tr → Q (past ++ tr).
Proof.
  revert past. induction tr as [|a tr IH]; intros past [Hd Htr].
  - by rewrite app_nil_r.
  - apply IH in Htr. by rewrite <- app_assoc in Htr.
Qed.

Lemma along_prefix Q past tr pre post :
  along Q past tr → tr = pre ++ post → Q (past ++ pre).
Proof.
  revert past tr. induction pre as [|a pre IH]; intros past tr Htr ->.
  - rewrite app_nil_r. by apply along_head in Htr.
  - destruct Htr as [_ Htr]. simpl in Htr.
    specialize (IH _ _ Htr eq_refl). by rewrite <- app_assoc in IH.
Qed.

Lemma detachFirst_nil s0 bw : detachFirst s0 bw [].
Proof. split; intros ? ? Hin; by apply elem_of_nil in Hin. Qed.

Lemma detachFirst_snoc s0 bw past a :
  detachFirst s0 bw past →
  match a with
  | eraseJoint k =>
      ∀ j, joints s0 !! k = Some j →
           removeConstraint bw (JointInfo.joint j) ∈ past
  | eraseLink k =>
      ∀ l, links s0 !! k = Some l →
           removeRigidBody bw (LinkInfo.link l) ∈ past
  | _ => True
  end →
  detachFirst s0 bw (past ++ [a]).
Proof.
  intros [HJ HL] Ha. split.
  - intros k j [Hin|Hin%list_elem_of_singleton]%elem_of_app Hj;
      apply elem_of_app; left; [by apply (HJ k)|].
    subst a. by apply Ha.
  - intros k l [Hin|Hin%list_elem_of_singleton]%elem_of_app Hl;
      apply elem_of_app; left; [by apply (HL k)|].
    subst a. by apply Ha.
Qed.

Lemma along_jointBlocks s0 bw idx lk es past :
  detachFirst s0 bw past →
  (∀ e, e ∈ es → joints s0 !! e.1 = Some e.2) →
  along (detachFirst s0 bw) past (flat_map (jointBlock bw idx lk) es).
Proof.
  revert past. induction es as [|[k j] es IH]; intros past Hd Hes; [done|].
  assert (Hrest : ∀ e, e ∈ es → joints s0 !! e.1 = Some e.2)
    by (intros e He; apply Hes; by right).
  simpl. unfold jointBlock at 1. simpl.
  destruct (lk !! JointInfo.childLinkId j) as [l|]; [|by apply IH].
  destruct (LinkInfo.model l =? idx); [|by apply IH].
  assert (Hkj : joints s0 !! k = Some j) by (apply (Hes (k, j)); by left).
  pose proof (detachFirst_snoc _ _ _
                (removeConstraint bw (JointInfo.joint j)) Hd I) as H1.
  pose proof (detachFirst_snoc _ _ _ (eraseChildIdToParentId k) H1 I) as H2.
  assert (H3 : detachFirst s0 bw
                 (((past ++ [removeConstraint bw (JointInfo.joint j)])
                   ++ [eraseChildIdToParentId k]) ++ [eraseJoint k])).
  { apply detachFirst_snoc; [done|]. intros j' Hj'.
    assert (j' = j) as -> by congruence.
    rewrite !elem_of_app, !list_elem_of_singleton. tauto. }
  simpl. repeat (split; [done|]). by apply IH.
Qed.

Lemma along_collisionBlocks s0 bw idx es past :
  detachFirst s0 bw past →
  along (detachFirst s0 bw) past (flat_map (collisionBlock idx) es).
Proof.
  revert past. induction es as [|[k c] es IH]; intros past Hd; [done|].
  simpl. unfold collisionBlock at 1. simpl.
  destruct (CollisionInfo.model c =? idx); [|by apply IH].
  pose proof (detachFirst_snoc _ _ _ (eraseChildIdToParentId k) Hd I) as H1.
  pose proof (detachFirst_snoc _ _ _ (eraseCollision k) H1 I) as H2.
  simpl. repeat (split; [done|]). by apply IH.
Qed.

Lemma along_linkBlocks s0 bw idx es past :
  detachFirst s0 bw past →
  (∀ e, e ∈ es → links s0 !! e.1 = Some e.2) →
  along (detachFirst s0 bw) past (flat_map (linkBlock bw idx) es).
Proof.
  revert past. induction es as [|[k l] es IH]; intros past Hd Hes; [done|].
  assert (Hrest : ∀ e, e ∈ es → links s0 !! e.1 = Some e.2)
    by (intros e He; apply Hes; by right).
  simpl. unfold linkBlock at 1. simpl.
  destruct (LinkInfo.model l =? idx); [|by apply IH].
  assert (Hkl : links s0 !! k = Some l) by (apply (Hes (k, l)); by left).
  pose proof (detachFirst_snoc _ _ _
                (removeRigidBody bw (LinkInfo.link l)) Hd I) as H1.
  pose proof (detachFirst_snoc _ _ _ (eraseChildIdToParentId k) H1 I) as H2.
  assert (H3 : detachFirst s0 bw
                 (((past ++ [removeRigidBody bw (LinkInfo.link l)])
                   ++ [eraseChildIdToParentId k]) ++ [eraseLink k])).
  { apply detachFirst_snoc; [done|]. intros l' Hl'.
    assert (l' = l) as -> by congruence.
    rewrite !elem_of_app, !list_elem_of_singleton. tauto. }
  simpl. repeat (split; [done|]). by apply IH.
Qed.

Lemma along_cascadeWrites bw e idx s :
  along (detachFirst s bw) [] (cascadeWrites bw e idx s).
Proof.
  unfold cascadeWrites.
  assert (HJ : along (detachFirst s bw) [] (jointWrites bw idx s)).
  { apply along_jointBlocks; [apply detachFirst_nil|].
    by intros [k j] He%elem_of_map_to_list. }
  apply along_app; [done|]. apply along_last in HJ.
  assert (HC : along (detachFirst s bw) ([] ++ jointWrites bw idx s)
                 (collisionWrites idx s))
    by (by apply along_collisionBlocks).
  apply along_app; [done|]. apply along_last in HC.
  assert (HL : along (detachFirst s bw)
                 (([] ++ jointWrites bw idx s) ++ collisionWrites idx s)
                 (linkWrites bw idx s)).
  { apply along_linkBlocks; [done|].
    by intros [k l] He%elem_of_map_to_list. }
  apply along_app; [done|]. apply along_last in HL.
  pose proof (detachFirst_snoc _ _ _ (eraseModel e) HL I) as H1.
  pose proof (detachFirst_snoc _ _ _ (eraseChildIdToParentId idx) H1 I) as H2.
  unfold modelWrites. simpl. done.
Qed.

(** ** Native attachment only shrinks *)

Lemma constraintAttached_apply a s bw h :
  constraintAttached s bw h = false →
  constraintAttached (apply a s) bw h = false.
Proof.
  unfold constraintAttached.
  destruct a as [bw' h'|bw' h'| | | | |]; simpl; try done.
  - rewrite lookup_alter. case_decide; [subst bw'|done].
    destruct (worlds s !! bw) as [wi|]; simpl; [|done].
    rewrite !bool_decide_eq_false. intros Hn Hin. apply Hn.
    apply elem_of_difference in Hin. tauto.
  - rewrite lookup_alter. case_decide; [subst bw'|done].
    by destruct (worlds s !! bw) as [wi|].
Qed.

Lemma rigidBodyAttached_apply a s bw h :
  rigidBodyAttached s bw h = false →
  rigidBodyAttached (apply a s) bw h = false.
Proof.
  unfold rigidBodyAttached.
  destruct a as [bw' h'|bw' h'| | | | |]; simpl; try done.
  - rewrite lookup_alter. case_decide; [subst bw'|done].
    by destruct (worlds s !! bw) as [wi|].
  - rewrite lookup_alter. case_decide; [subst bw'|done].
    destruct (worlds s !! bw) as [wi|]; simpl; [|done].
    rewrite !bool_decide_eq_false. intros Hn Hin. apply Hn.
    apply elem_of_difference in Hin. tauto.
Qed.

Lemma constraint_detached_by_run tr s bw h :
  removeConstraint bw h ∈ tr → constraintAttached (run tr s) bw h = false.
Proof.
  induction tr as [|a tr IH] using rev_ind; [by intros ?%elem_of_nil|].
  rewrite run_snoc.
  intros [Hin|Heq%list_elem_of_singleton]%elem_of_app.
  - by apply constraintAttached_apply, IH.
  - subst a. unfold constraintAttached. simpl. rewrite lookup_alter_eq.
    destruct (worlds (run tr s) !! bw) as [wi|]; simpl; [|done].
    apply bool_decide_eq_false. intros Hin%elem_of_difference.
    destruct Hin as [_ Hn]. apply Hn. by apply elem_of_singleton.
Qed.

Lemma rigidBody_detached_by_run tr s bw h :
  removeRigidBody bw h ∈ tr → rigidBodyAttached (run tr s) bw h = false.
Proof.
  induction tr as [|a tr IH] using rev_ind; [by intros ?%elem_of_nil|].
  rewrite run_snoc.
  intros [Hin|Heq%list_elem_of_singleton]%elem_of_app.
  - by apply rigidBodyAttached_apply, IH.
  - subst a. unfold rigidBodyAttached. simpl. rewrite lookup_alter_eq.
    destruct (worlds (run tr s) !! bw) as [wi|]; simpl; [|done].
    apply bool_decide_eq_false. intros Hin%elem_of_difference.
    destruct Hin as [_ Hn]. apply Hn. by apply elem_of_singleton.
Qed.

Lemma detachFirst_noErasedWhileAttached s bw pre :
  detachFirst s bw pre → noErasedWhileAttached s bw (run pre s).
Proof.
  intros [HJ HL]. split.
  - intros k j Hj Hgone. apply constraint_detached_by_run, (HJ k); [|done].
    rewrite joints_run in Hgone. case_decide; [done | congruence].
  - intros k l Hl Hgone. apply rigidBody_detached_by_run, (HL k); [|done].
    rewrite links_run in Hgone. case_decide; [done | congruence].
Qed.

Lemma RemoveModelByIndex_phase_order w idx s s' tr :
  RemoveModelByIndex w idx s [] = Done true s' tr →
  ∃ e model,
    models s !! e = Some model ∧
    tr = jointWrites (ModelInfo.world model) idx s ++ collisionWrites idx s
         ++ linkWrites (ModelInfo.world model) idx s ++ modelWrites e idx ∧
    s' = run tr s ∧
    ∀ pre post, tr = pre ++ post →
      detachFirst s (ModelInfo.world model) pre ∧
      noErasedWhileAttached s (ModelInfo.world model) (run pre s).
Proof.
  intros Hrun.
  destruct (RemoveModelByIndex_Done _ _ _ _ _ _ _ Hrun)
    as [(? & _)|(_ & Hres & model & Hm & Hw)]; [discriminate|].
  rewrite (RemoveModelByIndex_found w idx s [] model) in Hrun by done.
  simpl in Hrun. injection Hrun as <- <-.
  exists (indexInContainerToId s w idx), model.
  split; [done|]. split; [done|]. split; [done|].
  intros pre post Heq.
  assert (Hd : detachFirst s (ModelInfo.world model) pre).
  { apply (along_prefix _ [] _ pre post
             (along_cascadeWrites (ModelInfo.world model)
                (indexInContainerToId s w idx) idx s)).
    exact Heq. }
  split; [done|]. by apply detachFirst_noErasedWhileAttached.
Qed.

(** The order of the writes.  The writes of a removal call that returns true
    are the writes of the joint scan, then those of the collision scan, then
    those of the link scan, then the erasure of the model record and of a
    child-to-parent entry; the final store is the initial store after these
    writes.  At every point of the cascade each joint or link record erased
    so far has had [removeConstraint] or [removeRigidBody] called on its
    native handle earlier, and in the store reached at that point no erased
    joint or link record has its native counterpart attached to the dynamics
    world the cascade works on (the world of the removed model). *)
Theorem cascade_phase_order c s s' tr :
  call c s [] = Done true s' tr →
  ∃ idx e model,
    models s !! e = Some model ∧
    tr = jointWrites (ModelInfo.world model) idx s ++ collisionWrites idx s
         ++ linkWrites (ModelInfo.world model) idx s ++ modelWrites e idx ∧
    Forall isJointWrite (jointWrites (ModelInfo.world model) idx s) ∧
    Forall isCollisionWrite (collisionWrites idx s) ∧
    Forall isLinkWrite (linkWrites (ModelInfo.world model) idx s) ∧
    s' = run tr s ∧
    ∀ pre post, tr = pre ++ post →
      detachFirst s (ModelInfo.world model) pre ∧
      noErasedWhileAttached s (ModelInfo.world model) (run pre s).
Proof.
  assert (Hidx : ∀ w idx, RemoveModelByIndex w idx s [] = Done true s' tr →
    ∃ idx e model,
      models s !! e = Some model ∧
      tr = jointWrites (ModelInfo.world model) idx s ++ collisionWrites idx s
           ++ linkWrites (ModelInfo.world model) idx s ++ modelWrites e idx ∧
      Forall isJointWrite (jointWrites (ModelInfo.world model) idx s) ∧
      Forall isCollisionWrite (collisionWrites idx s) ∧
      Forall isLinkWrite (linkWrites (ModelInfo.world model) idx s) ∧
      s' = run tr s ∧
      ∀ pre post, tr = pre ++ post →
        detachFirst s (ModelInfo.world model) pre ∧
        noErasedWhileAttached s (ModelInfo.world model) (run pre s)).
  { intros w idx Hrun.
    apply RemoveModelByIndex_phase_order in Hrun
      as (e & model & Hm & Htr & Hs' & Hpre).
    exists idx, e, model.
    split; [done|]. split; [done|].
    split; [apply jointBlocks_are|].
    split; [apply collisionBlocks_are|].
    split; [apply linkBlocks_are|]. done. }
  destruct c as [m|w i|w n]; simpl.
  - rewrite RemoveModel_unfold. destruct (models s !! m); [|discriminate].
    apply Hidx.
  - apply Hidx.
  - rewrite RemoveModelByName_unfold.
    destruct (scanModels n (map_to_list (models s))) as [[|] entity];
      [|discriminate].
    apply Hidx.
Qed.

End RemovalProperties.

(** ** What a completed cascade erases *)

Lemma elem_of_flat_map_blocks {A} (f : A → list Action) es (a : Action) :
  a ∈ flat_map f es ↔ ∃ e, e ∈ es ∧ a ∈ f e.
Proof.
  rewrite list_elem_of_In, in_flat_map. split.
  - intros (e & He & Ha). exists e. by rewrite !list_elem_of_In.
  - intros (e & He & Ha). exists e. by rewrite <- !list_elem_of_In.
Qed.

Lemma eraseLink_in_cascade bw e idx s k :
  eraseLink k ∈ cascadeWrites bw e idx s ↔
  ∃ l, links s !! k = Some l ∧ LinkInfo.model l = idx.
Proof.
  unfold cascadeWrites, modelWrites. rewrite !elem_of_app. split.
  - intros [Hin|[Hin|[Hin|Hin]]].
    + pose proof (jointBlocks_are bw idx (links s) (map_to_list (joints s)))
        as HF.
      rewrite Forall_forall in HF. destruct (HF _ Hin).
    + pose proof (collisionBlocks_are idx (map_to_list (collisions s))) as HF.
      rewrite Forall_forall in HF. destruct (HF _ Hin).
    + apply elem_of_flat_map_blocks in Hin as ([k' l] & He & Hin).
      apply elem_of_map_to_list in He. unfold linkBlock in Hin. simpl in Hin.
      destruct (Z.eqb_spec (LinkInfo.model l) idx) as [Heq|Hne];
        [|by apply elem_of_nil in Hin].
      rewrite !elem_of_cons in Hin.
      destruct Hin as [?|[?|[?|Hin]]]; try discriminate;
        [|by apply elem_of_nil in Hin].
      simplify_eq. eauto.
    + rewrite !elem_of_cons in Hin.
      destruct Hin as [?|[?|Hin]]; try discriminate.
      by apply elem_of_nil in Hin.
  - intros (l & Hl & Hidx). right. right. left.
    apply elem_of_flat_map_blocks. exists (k, l).
    split; [by apply elem_of_map_to_list|].
    unfold linkBlock. simpl. rewrite (proj2 (Z.eqb_eq _ _) Hidx).
    rewrite !elem_of_cons. tauto.
Qed.

Lemma eraseCollision_in_cascade bw e idx s k :
  eraseCollision k ∈ cascadeWrites bw e idx s ↔
  ∃ c, collisions s !! k = Some c ∧ CollisionInfo.model c = idx.
Proof.
  unfold cascadeWrites, modelWrites. rewrite !elem_of_app. split.
  - intros [Hin|[Hin|[Hin|Hin]]].
    + pose proof (jointBlocks_are bw idx (links s) (map_to_list (joints s)))
        as HF.
      rewrite Forall_forall in HF. destruct (HF _ Hin).
    + apply elem_of_flat_map_blocks in Hin as ([k' c] & He & Hin).
      apply elem_of_map_to_list in He.
      unfold collisionBlock in Hin. simpl in Hin.
      destruct (Z.eqb_spec (CollisionInfo.model c) idx) as [Heq|Hne];
        [|by apply elem_of_nil in Hin].
      rewrite !elem_of_cons in Hin.
      destruct Hin as [?|[?|Hin]]; try discriminate;
        [|by apply elem_of_nil in Hin].
      simplify_eq. eauto.
    + pose proof (linkBlocks_are bw idx (map_to_list (links s))) as HF.
      rewrite Forall_forall in HF. destruct (HF _ Hin).
    + rewrite !elem_of_cons in Hin.
      destruct Hin as [?|[?|Hin]]; try discriminate.
      by apply elem_of_nil in Hin.
  - intros (c & Hc & Hidx). right. left.
    apply elem_of_flat_map_blocks. exists (k, c).
    split; [by apply elem_of_map_to_list|].
    unfold collisionBlock. simpl. rewrite (proj2 (Z.eqb_eq _ _) Hidx).
    rewrite !elem_of_cons. tauto.
Qed.

Lemma eraseJoint_in_cascade bw e idx s k :
  eraseJoint k ∈ cascadeWrites bw e idx s ↔
  ∃ j l, joints s !! k = Some j ∧
         links s !! JointInfo.childLinkId j = Some l ∧
         LinkInfo.model l = idx.
Proof.
  unfold cascadeWrites, modelWrites. rewrite !elem_of_app. split.
  - intros [Hin|[Hin|[Hin|Hin]]].
    + apply elem_of_flat_map_blocks in Hin as ([k' j] & He & Hin).
      apply elem_of_map_to_list in He. unfold jointBlock in Hin. simpl in Hin.
      destruct (links s !! JointInfo.childLinkId j) as [l|] eqn:Hl;
        [|by apply elem_of_nil in Hin].
      destruct (Z.eqb_spec (LinkInfo.model l) idx) as [Heq|Hne];
        [|by apply elem_of_nil in Hin].
      rewrite !elem_of_cons in Hin.
      destruct Hin as [?|[?|[?|Hin]]]; try discriminate;
        [|by apply elem_of_nil in Hin].
      simplify_eq. eauto.
    + pose proof (collisionBlocks_are idx (map_to_list (collisions s))) as HF.
      rewrite Forall_forall in HF. destruct (HF _ Hin).
    + pose proof (linkBlocks_are bw idx (map_to_list (links s))) as HF.
      rewrite Forall_forall in HF. destruct (HF _ Hin).
    + rewrite !elem_of_cons in Hin.
      destruct Hin as [?|[?|Hin]]; try discriminate.
      by apply elem_of_nil in Hin.
  - intros (j & l & Hj & Hl & Hidx). left.
    apply elem_of_flat_map_blocks. exists (k, j).
    split; [by apply elem_of_map_to_list|].
    unfold jointBlock. simpl. rewrite Hl, (proj2 (Z.eqb_eq _ _) Hidx).
    rewrite !elem_of_cons. tauto.
Qed.

Section CascadeEffect.
Context {registry : Registry}.

(** The store after a removal by index that returned true: the model record
    the registry resolved is erased, and the scans have erased exactly the
    links and collisions whose owner field equals the index, and the joints
    whose child link has that owner field. *)
Theorem cascade_is_keyed_by_index w idx s s' tr :
  RemoveModelByIndex w idx s [] = Done true s' tr →
  models s' = delete (indexInContainerToId s w idx) (models s) ∧
  (∀ k, links s' !! k =
        match links s !! k with
        | Some l => if LinkInfo.model l =? idx then None else Some l
        | None => None
        end) ∧
  (∀ k, collisions s' !! k =
        match collisions s !! k with
        | Some c => if CollisionInfo.model c =? idx then None else Some c
        | None => None
        end) ∧
  (∀ k, joints s' !! k =
        match joints s !! k with
        | Some j =>
            match links s !! JointInfo.childLinkId j with
            | Some l => if LinkInfo.model l =? idx then None else Some j
            | None => Some j
            end
        | None => None
        end).
Proof.
  intros Hrun.
  destruct (RemoveModelByIndex_Done _ _ _ _ _ _ _ Hrun)
    as [(? & _)|(_ & Hres & model & Hm & Hw)]; [discriminate|].
  rewrite (RemoveModelByIndex_found w idx s [] model) in Hrun by done.
  simpl in Hrun. injection Hrun as <- _.
  split; [apply cascade_models|]. split; [|split]; intros k.
  - rewrite links_run. case_decide as Hin.
    + apply eraseLink_in_cascade in Hin as (l & -> & Hidx).
      by rewrite (proj2 (Z.eqb_eq _ _) Hidx).
    + destruct (links s !! k) as [l|] eqn:Hl; [|done].
      destruct (Z.eqb_spec (LinkInfo.model l) idx) as [Heq|Hne]; [|done].
      destruct Hin. apply eraseLink_in_cascade. eauto.
  - rewrite collisions_run. case_decide as Hin.
    + apply eraseCollision_in_cascade in Hin as (c & -> & Hidx).
      by rewrite (proj2 (Z.eqb_eq _ _) Hidx).
    + destruct (collisions s !! k) as [c|] eqn:Hc; [|done].
      destruct (Z.eqb_spec (CollisionInfo.model c) idx) as [Heq|Hne]; [|done].
      destruct Hin. apply eraseCollision_in_cascade. eauto.
  - rewrite joints_run. case_decide as Hin.
    + apply eraseJoint_in_cascade in Hin as (j & l & -> & -> & Hidx).
      by rewrite (proj2 (Z.eqb_eq _ _) Hidx).
    + destruct (joints s !! k) as [j|] eqn:Hj; [|done].
      destruct (links s !! JointInfo.childLinkId j) as [l|] eqn:Hl; [|done].
      destruct (Z.eqb_spec (LinkInfo.model l) idx) as [Heq|Hne]; [|done].
      destruct Hin. apply eraseJoint_in_cascade. eauto.
Qed.

(** X14. Whenever the index of a model differs from its identity, a removal
    that returns true keeps every link and collision the model owns and
    every joint on its links. *)
Theorem removal_keeps_entities_when_index_differs m s s' tr :
  RemoveModel m s [] = Done true s' tr →
  idToIndexInContainer s m ≠ m →
  (∀ k l, links s !! k = Some l → LinkInfo.model l = m →
          links s' !! k = Some l) ∧
  (∀ k c, collisions s !! k = Some c → CollisionInfo.model c = m →
          collisions s' !! k = Some c) ∧
  (∀ k j l, joints s !! k = Some j →
            links s !! JointInfo.childLinkId j = Some l →
            LinkInfo.model l = m → joints s' !! k = Some j).
Proof.
  rewrite RemoveModel_unfold.
  destruct (models s !! m) as [model|]; [|discriminate].
  intros (_ & HL & HC & HJ)%cascade_is_keyed_by_index Hne.
  split; [|split].
  - intros k l Hl Hown. rewrite HL, Hl.
    destruct (Z.eqb_spec (LinkInfo.model l) (idToIndexInContainer s m));
      [congruence | done].
  - intros k c Hc Hown. rewrite HC, Hc.
    destruct (Z.eqb_spec (CollisionInfo.model c) (idToIndexInContainer s m));
      [congruence | done].
  - intros k j l Hj Hl Hown. rewrite HJ, Hj, Hl.
    destruct (Z.eqb_spec (LinkInfo.model l) (idToIndexInContainer s m));
      [congruence | done].
Qed.

(** X15. A removal that returns true erases the links, collisions and
    joints whose owner field equals the index of the removed model,
    whichever model that identity denotes. *)
Theorem removal_erases_entities_of_index m s s' tr :
  RemoveModel m s [] = Done true s' tr →
  (∀ k l, links s !! k = Some l →
          LinkInfo.model l = idToIndexInContainer s m →
          links s' !! k = None) ∧
  (∀ k c, collisions s !! k = Some c →
          CollisionInfo.model c = idToIndexInContainer s m →
          collisions s' !! k = None) ∧
  (∀ k j l, joints s !! k = Some j →
            links s !! JointInfo.childLinkId j = Some l →
            LinkInfo.model l = idToIndexInContainer s m →
            joints s' !! k = None).
Proof.
  rewrite RemoveModel_unfold.
  destruct (models s !! m) as [model|]; [|discriminate].
  intros (_ & HL & HC & HJ)%cascade_is_keyed_by_index.
  split; [|split].
  - intros k l Hl Hown. by rewrite HL, Hl, (proj2 (Z.eqb_eq _ _) Hown).
  - intros k c Hc Hown. by rewrite HC, Hc, (proj2 (Z.eqb_eq _ _) Hown).
  - intros k j l Hj Hl Hown.
    by rewrite HJ, Hj, Hl, (proj2 (Z.eqb_eq _ _) Hown).
Qed.

(** Removal keeps the child link of every remaining joint in the store: a
    store whose joints resolve stays so through every removal call. *)
Theorem jointsResolve_preserved c s b s' tr :
  jointsResolve s → call c s [] = Done b s' tr → jointsResolve s'.
Proof.
  intros Hres.
  assert (Hidx : ∀ w idx, RemoveModelByIndex w idx s [] = Done b s' tr →
                          jointsResolve s').
  { intros w idx Hrun. destruct b.
    - apply cascade_is_keyed_by_index in Hrun as (_ & HL & _ & HJ).
      intros k j Hj. rewrite HJ in Hj.
      destruct (joints s !! k) as [j0|] eqn:Hj0; [|discriminate].
      destruct (Hres k j0 Hj0) as [l Hl]. rewrite Hl in Hj.
      destruct (LinkInfo.model l =? idx) eqn:Hidx; [discriminate|].
      injection Hj as <-. rewrite HL, Hl, Hidx. eauto.
    - apply RemoveModelByIndex_Done in Hrun as [(_ & -> & _)|(? & _)];
        [done | discriminate]. }
  destruct c as [m|w i|w n]; simpl.
  - rewrite RemoveModel_unfold. destruct (models s !! m).
    + apply Hidx.
    + by intros [= <- <- <-].
  - apply Hidx.
  - rewrite RemoveModelByName_unfold.
    destruct (scanModels n (map_to_list (models s))) as [[|] entity].
    + apply Hidx.
    + by intros [= <- <- <-].
Qed.

End CascadeEffect.

(** ** The registry kept in [childIdToParentId] round-trips *)

Lemma length_filter_le_impl {A} (P Q : A → Prop)
    `{!∀ x, Decision (P x)} `{!∀ x, Decision (Q x)} (l : list A) :
  (∀ x, P x → Q x) → (length (filter P l) ≤ length (filter Q l))%nat.
Proof.
  intros HPQ. induction l as [|x l IH]; [done|].
  rewrite !filter_cons.
  destruct (decide (P x)) as [HP|HP]; destruct (decide (Q x)) as [HQ|HQ];
    simpl; try lia.
  destruct HQ. by apply HPQ.
Qed.

Lemma length_filter_lt_impl {A} (P Q : A → Prop)
    `{!∀ x, Decision (P x)} `{!∀ x, Decision (Q x)} (l : list A) x0 :
  (∀ x, P x → Q x) → x0 ∈ l → Q x0 → ¬ P x0 →
  (length (filter P l) < length (filter Q l))%nat.
Proof.
  intros HPQ Hin HQ0 HP0. induction l as [|x l IH]; [by apply elem_of_nil in Hin|].
  rewrite !filter_cons.
  apply elem_of_cons in Hin as [<-|Hin].
  - rewrite decide_False, decide_True by done. simpl.
    pose proof (length_filter_le_impl P Q l HPQ). lia.
  - specialize (IH Hin).
    destruct (decide (P x)) as [HP|HP]; destruct (decide (Q x)) as [HQ|HQ];
      simpl; try lia.
    destruct HQ. by apply HPQ.
Qed.

Lemma positionAmongChildren_lt aux w k1 k2 :
  aux !! k1 = Some w → k1 < k2 →
  positionAmongChildren aux w k1 < positionAmongChildren aux w k2.
Proof.
  intros Hk1 Hlt. unfold positionAmongChildren. apply inj_lt.
  apply (length_filter_lt_impl _ _ _ (k1, w)); simpl.
  - intros [k p]. simpl. lia.
  - by apply elem_of_map_to_list.
  - done.
  - lia.
Qed.

(** On a store whose child-to-parent map records [w] as the parent of [m],
    the identity at the index of [m] within [w] is [m]. *)
Lemma aux_registry_round_trip s m w :
  childIdToParentId s !! m = Some w →
  aux_indexInContainerToId s w (aux_idToIndexInContainer s m) = m.
Proof.
  intros Hm. unfold aux_indexInContainerToId, aux_idToIndexInContainer.
  rewrite Hm.
  set (F := filter _ _).
  assert (Hin : (m, w) ∈ F).
  { apply list_elem_of_filter. split; [done|]. by apply elem_of_map_to_list. }
  assert (Hall : ∀ kp, kp ∈ F → kp.1 = m).
  { intros [k p] [[Hp Hpos] Hk%elem_of_map_to_list]%list_elem_of_filter.
    simpl in *. subst p.
    destruct (Z.lt_trichotomy k m) as [Hlt|[Heq|Hgt]]; [|done|].
    - pose proof (positionAmongChildren_lt _ _ _ _ Hk Hlt). lia.
    - pose proof (positionAmongChildren_lt _ _ _ _ Hm Hgt). lia. }
  destruct F as [|kp F']; [by apply elem_of_nil in Hin|].
  apply Hall. by left.
Qed.

(** ** The removal on the worked stores

    From here on the registry is the one kept in [childIdToParentId]. *)

Lemma scenario_jointsResolve : jointsResolve scenario.
Proof.
  apply (bool_decide_unpack (jointsResolve scenario)). vm_compute. exact I.
Qed.

Lemma twoWorlds_jointsResolve : jointsResolve twoWorlds.
Proof. intros k j Hj. vm_compute in Hj. discriminate. Qed.

Lemma RemoveModel_M1_scenario :
  RemoveModel M1 scenario [] = Done true (run writesM1 scenario) writesM1.
Proof. vm_compute. reflexivity. Qed.

Lemma RemoveModel_M2_scenario :
  RemoveModel M2 scenario [] = Done true (run writesM2 scenario) writesM2.
Proof. vm_compute. reflexivity. Qed.

(** C1. Cascade completeness, evaluated on [scenario]: [RemoveModel M1]
    returns true, yet its only writes are the erasure of the model record
    and of the child-to-parent entry [0]; both links of [M1], its collision
    and the joint on its link are still in the store, and their bodies and
    the constraint are still attached to the native world. *)
Theorem cascade_leaves_owned_entities :
  RemoveModel M1 scenario [] = Done true (run writesM1 scenario) writesM1 ∧
  ModelRemoved (run writesM1 scenario) M1 = true ∧
  links (run writesM1 scenario) !! L1 = Some (LinkInfo.mk M1 102) ∧
  links (run writesM1 scenario) !! L2 = Some (LinkInfo.mk M1 103) ∧
  collisions (run writesM1 scenario) !! C1 = Some (CollisionInfo.mk M1) ∧
  joints (run writesM1 scenario) !! J1 = Some (JointInfo.mk 105 L2 L1) ∧
  rigidBodyAttached (run writesM1 scenario) W 102 = true ∧
  rigidBodyAttached (run writesM1 scenario) W 103 = true ∧
  constraintAttached (run writesM1 scenario) W 105 = true.
Proof.
  split; [exact RemoveModel_M1_scenario|].
  repeat split; vm_compute; reflexivity.
Qed.

(** C2. No collateral damage, evaluated on [scenario]: [RemoveModel M2]
    returns true and erases the two links, the collision and the joint of
    the other model [M1], detaches their bodies and the constraint, and
    erases the child-to-parent entry of [M1]; the link of [M2] itself stays
    in the store with its body attached. *)
Theorem removal_damages_other_model :
  M1 ≠ M2 ∧
  RemoveModel M2 scenario [] = Done true (run writesM2 scenario) writesM2 ∧
  links (run writesM2 scenario) !! L1 = None ∧
  links (run writesM2 scenario) !! L2 = None ∧
  collisions (run writesM2 scenario) !! C1 = None ∧
  joints (run writesM2 scenario) !! J1 = None ∧
  rigidBodyAttached (run writesM2 scenario) W 102 = false ∧
  rigidBodyAttached (run writesM2 scenario) W 103 = false ∧
  constraintAttached (run writesM2 scenario) W 105 = false ∧
  childIdToParentId (run writesM2 scenario) !! M1 = None ∧
  models (run writesM2 scenario) !! M1 = Some (ModelInfo.mk "m1" W) ∧
  links (run writesM2 scenario) !! L3 = Some (LinkInfo.mk M2 107) ∧
  rigidBodyAttached (run writesM2 scenario) W 107 = true.
Proof.
  split; [discriminate|].
  split; [exact RemoveModel_M2_scenario|].
  repeat split; vm_compute; reflexivity.
Qed.

(** C6. Joint cascade by child link, evaluated on [scenario], where the
    child link [L2] of joint [J1] belongs to [M1] and not to [M2]: removing
    [M1] leaves [J1] in the store, and removing [M2] erases it. *)
Theorem joint_cascade_follows_index :
  (LinkInfo.model <$> links scenario !! L2) = Some M1 ∧
  joints scenario !! J1 = Some (JointInfo.mk 105 L2 L1) ∧
  (∃ s' tr, RemoveModel M1 scenario [] = Done true s' tr ∧
            joints s' !! J1 = joints scenario !! J1) ∧
  (∃ s' tr, RemoveModel M2 scenario [] = Done true s' tr ∧
            joints s' !! J1 = None).
Proof.
  split; [reflexivity|]. split; [reflexivity|]. split.
  - eexists _, _. split; [exact RemoveModel_M1_scenario|].
    vm_compute. reflexivity.
  - eexists _, _. split; [exact RemoveModel_M2_scenario|].
    vm_compute. reflexivity.
Qed.

(** C8. Lockstep of the child-to-parent map, evaluated on [scenario], where
    the map has an entry for every identity of the store: after
    [RemoveModel M1] the model record of [M1] is erased but its
    child-to-parent entry is still there, and the entry of the world [W],
    whose record is still in the store, is gone. *)
Theorem model_entry_out_of_lockstep :
  (∀ k, is_Some (childIdToParentId scenario !! k) ↔
        is_Some (worlds scenario !! k) ∨ is_Some (models scenario !! k) ∨
        is_Some (links scenario !! k) ∨ is_Some (collisions scenario !! k) ∨
        is_Some (joints scenario !! k)) ∧
  RemoveModel M1 scenario [] = Done true (run writesM1 scenario) writesM1 ∧
  models (run writesM1 scenario) !! M1 = None ∧
  childIdToParentId (run writesM1 scenario) !! M1 = Some W ∧
  is_Some (worlds (run writesM1 scenario) !! W) ∧
  childIdToParentId (run writesM1 scenario) !! W = None.
Proof.
  split.
  - intros k. rewrite <- !elem_of_dom, <- !elem_of_union.
    assert (Hdom : dom (childIdToParentId scenario) =
              dom (worlds scenario) ∪ (dom (models scenario) ∪
              (dom (links scenario) ∪ (dom (collisions scenario) ∪
               dom (joints scenario))))) by (vm_compute; reflexivity).
    by rewrite Hdom.
  - split; [exact RemoveModel_M1_scenario|].
    repeat split; try (vm_compute; reflexivity).
    eexists. vm_compute. reflexivity.
Qed.

(** A consequence of the stale child-to-parent map for the registry kept in
    it: [RemoveModel M2] on [scenario] erases the entry of [M1], and from
    then on [RemoveModel M1] returns false although [M1] is in the model
    map. *)
Lemma removal_blocked_after_lockstep_break :
  models (run writesM2 scenario) !! M1 = Some (ModelInfo.mk "m1" W) ∧
  RemoveModel M1 (run writesM2 scenario) [] =
    Done false (run writesM2 scenario) [].
Proof. split; vm_compute; reflexivity. Qed.


(** C3. Not-found is an atomic no-op, and every removal call either fully
    succeeds or mutates nothing.  The first half holds: [RemoveModel] on an
    identity that is not in the model map returns false and leaves
    [scenario] as it was.  The second half fails on [scenario]:
    [RemoveModel M1] returns true and has mutated the store (the model
    record of [M1] and the child-to-parent entry [0] are erased), but the
    links, the collision and the joint of [M1] are all still there, so the
    call has neither fully succeeded nor left the store alone. *)
Theorem removal_neither_complete_nor_noop :
  RemoveModel 42 scenario [] = Done false scenario [] ∧
  RemoveModel M1 scenario [] = Done true (run writesM1 scenario) writesM1 ∧
  models scenario !! M1 = Some (ModelInfo.mk "m1" W) ∧
  models (run writesM1 scenario) !! M1 = None ∧
  is_Some (childIdToParentId scenario !! 0) ∧
  childIdToParentId (run writesM1 scenario) !! 0 = None ∧
  links (run writesM1 scenario) !! L1 = Some (LinkInfo.mk M1 102) ∧
  links (run writesM1 scenario) !! L2 = Some (LinkInfo.mk M1 103) ∧
  collisions (run writesM1 scenario) !! C1 = Some (CollisionInfo.mk M1) ∧
  joints (run writesM1 scenario) !! J1 = Some (JointInfo.mk 105 L2 L1).
Proof.
  split; [vm_compute; reflexivity|].
  split; [exact RemoveModel_M1_scenario|].
  split; [reflexivity|]. split; [vm_compute; reflexivity|].
  split; [eexists; vm_compute; reflexivity|].
  split; [vm_compute; reflexivity|].
  split; [vm_compute; reflexivity|].
  split; [vm_compute; reflexivity|].
  split; vm_compute; reflexivity.
Qed.


(** C7. Cascade phase order, evaluated on [crossWorlds].  [RemoveModel 5]
    runs with index [1], the position of model [5] in world [3]: the link
    scan calls [removeRigidBody] on the native world of world [3] for body
    [102] and then erases link [2], which belongs to model [1] of world
    [0].  Body [102] was attached to the native world of world [0] and
    still is, at the moment the link record is erased and when the call
    returns true. *)
Theorem link_erased_while_body_attached :
  RemoveModel 5 crossWorlds [] =
    Done true (run writesCross crossWorlds) writesCross ∧
  links crossWorlds !! 2 = Some (LinkInfo.mk 1 102) ∧
  rigidBodyAttached crossWorlds 0 102 = true ∧
  links (run [removeRigidBody 3 102; eraseChildIdToParentId 2; eraseLink 2]
           crossWorlds) !! 2 = None ∧
  rigidBodyAttached
    (run [removeRigidBody 3 102; eraseChildIdToParentId 2; eraseLink 2]
       crossWorlds) 0 102 = true ∧
  links (run writesCross crossWorlds) !! 2 = None ∧
  rigidBodyAttached (run writesCross crossWorlds) 0 102 = true.
Proof.
  split; [vm_compute; reflexivity|].
  split; [vm_compute; reflexivity|].
  split; [vm_compute; reflexivity|].
  split; [vm_compute; reflexivity|].
  split; [vm_compute; reflexivity|].
  split; vm_compute; reflexivity.
Qed.

(** ** The general theorems at work on the worked stores *)

Lemma not_found_is_atomic_noop_witness :
  RemoveModel 42 scenario [] = Done false scenario [] ∧
  (call (removeModelByName W "m2") scenario [] = Done false scenario [] ∨
   call (removeModelByName W "m2") scenario [] =
     Faulted out_of_range scenario [] ∨
   ∃ bw e idx, is_Some (models scenario !! e) ∧
     call (removeModelByName W "m2") scenario [] =
       Done true (run (cascadeWrites bw e idx scenario) scenario)
                 (cascadeWrites bw e idx scenario) ∧
     models (run (cascadeWrites bw e idx scenario) scenario) =
       delete e (models scenario)).
Proof.
  split.
  - apply (proj1 not_found_is_atomic_noop). reflexivity.
  - apply (proj2 (proj2 not_found_is_atomic_noop)).
    exact scenario_jointsResolve.
Defined.

Lemma removal_is_idempotent_witness :
  ∃ s1 tr, RemoveModel M1 scenario [] = Done true s1 tr ∧
           ModelRemoved s1 M1 = true ∧
           RemoveModel M1 s1 [] = Done false s1 [].
Proof.
  apply (removal_is_idempotent scenario M1 (ModelInfo.mk "m1" W)).
  - reflexivity.
  - vm_compute. reflexivity.
  - eexists. vm_compute. reflexivity.
  - exact scenario_jointsResolve.
Defined.


Lemma cascade_phase_order_witness :
  ∃ idx e model,
    models scenario !! e = Some model ∧
    writesM2 = jointWrites (ModelInfo.world model) idx scenario
         ++ collisionWrites idx scenario
         ++ linkWrites (ModelInfo.world model) idx scenario
         ++ modelWrites e idx ∧
    Forall isJointWrite (jointWrites (ModelInfo.world model) idx scenario) ∧
    Forall isCollisionWrite (collisionWrites idx scenario) ∧
    Forall isLinkWrite (linkWrites (ModelInfo.world model) idx scenario) ∧
    run writesM2 scenario = run writesM2 scenario ∧
    ∀ pre post, writesM2 = pre ++ post →
      detachFirst scenario (ModelInfo.world model) pre ∧
      noErasedWhileAttached scenario (ModelInfo.world model)
        (run pre scenario).
Proof.
  apply (cascade_phase_order (removeModel M2) scenario
           (run writesM2 scenario) writesM2).
  vm_compute. reflexivity.
Defined.

Lemma name_scan_ignores_world_witness :
  ModelInfo.world (ModelInfo.mk "a" 0) ≠ 1 ∧
  scanModels "a" (map_to_list (models twoWorlds)) = (true, 2) ∧
  RemoveModelByName 1 "a" twoWorlds [] =
    RemoveModelByIndex 1 (idToIndexInContainer twoWorlds 2) twoWorlds [].
Proof.
  split; [discriminate|].
  apply (name_scan_ignores_world twoWorlds "a"%string
           [(3, ModelInfo.mk "b" 1)] 2 (ModelInfo.mk "a" 0) []).
  - vm_compute. reflexivity.
  - reflexivity.
  - intros e He. apply list_elem_of_singleton in He. subst e.
    simpl. discriminate.
Defined.

Lemma joint_scan_child_lookup_witness :
  jointLoop W 1 (map_to_list (joints scenario)) scenario [] =
    Done tt (run (jointWrites W 1 scenario) scenario)
            ([] ++ jointWrites W 1 scenario) ∧
  ∀ w s' tr', RemoveModelByIndex w 1 scenario [] ≠
              Faulted null_dereference s' tr'.
Proof.
  apply (proj1 (joint_scan_child_lookup scenario W 1 [])).
  exact scenario_jointsResolve.
Defined.

(** ** Further properties of the writes *)

Lemma detachConstraint_comm h1 h2 w :
  detachConstraint h1 (detachConstraint h2 w) =
  detachConstraint h2 (detachConstraint h1 w).
Proof.
  unfold detachConstraint. simpl. do 2 f_equal.
  apply set_eq. intros x. rewrite !elem_of_difference. tauto.
Qed.

Lemma detachRigidBody_comm h1 h2 w :
  detachRigidBody h1 (detachRigidBody h2 w) =
  detachRigidBody h2 (detachRigidBody h1 w).
Proof.
  unfold detachRigidBody. simpl. do 2 f_equal.
  apply set_eq. intros x. rewrite !elem_of_difference. tauto.
Qed.

Lemma detach_comm h1 h2 w :
  detachConstraint h1 (detachRigidBody h2 w) =
  detachRigidBody h2 (detachConstraint h1 w).
Proof. reflexivity. Qed.

Lemma alter_alter_comm {A} (f g : A → A) (i j : Z) (m : gmap Z A) :
  (∀ x, f (g x) = g (f x)) →
  alter f i (alter g j m) = alter g j (alter f i m).
Proof.
  intros Hfg. apply map_eq. intros k.
  destruct (decide (i = k)) as [->|Hi]; destruct (decide (j = k)) as [->|Hj];
    repeat (rewrite lookup_alter_eq || rewrite lookup_alter_ne by done);
    try done.
  destruct (m !! k); simpl; [by rewrite Hfg | done].
Qed.

(** Any two writes commute. *)
Lemma apply_comm a b s : apply a (apply b s) = apply b (apply a s).
Proof.
  destruct a, b; simpl; f_equal;
    solve [ done
          | apply delete_delete
          | apply alter_alter_comm; intros x;
            auto using detachConstraint_comm, detachRigidBody_comm ].
Qed.

Lemma run_cons a tr s : run (a :: tr) s = run tr (apply a s).
Proof. reflexivity. Qed.

Lemma run_apply_comm a tr s : run tr (apply a s) = apply a (run tr s).
Proof.
  revert s. induction tr as [|b tr IH]; intros s; [done|].
  rewrite !run_cons, <- IH. by rewrite apply_comm.
Qed.

Lemma run_Permutation tr1 tr2 s : tr1 ≡ₚ tr2 → run tr1 s = run tr2 s.
Proof.
  intros Hp. revert s.
  induction Hp as [|a t1 t2 _ IH|a b t|t1 t2 t3 _ IH1 _ IH2]; intros s.
  - done.
  - rewrite !run_cons. apply IH.
  - rewrite !run_cons. by rewrite apply_comm.
  - by rewrite IH1, IH2.
Qed.

(** The world map after a run: the same keys, each record with the same
    name and configuration handles; a handle is attached afterwards exactly
    when it was attached before and the run did not detach it. *)
Lemma dom_worlds_run tr s : dom (worlds (run tr s)) = dom (worlds s).
Proof.
  induction tr as [|a tr IH] using rev_ind; [done|].
  rewrite run_snoc. destruct a; simpl; rewrite ?dom_alter_L; exact IH.
Qed.

Lemma worldSettings_run tr s k :
  worldSettings <$> worlds (run tr s) !! k = worldSettings <$> worlds s !! k.
Proof.
  induction tr as [|a tr IH] using rev_ind; [done|].
  rewrite run_snoc, <- IH.
  destruct a as [bw h|bw h| | | | |]; simpl; try done;
    rewrite lookup_alter; case_decide; try done; subst bw;
    by destruct (worlds (run tr s) !! k).
Qed.

Lemma worlds_run_other tr s k :
  (∀ h, removeConstraint k h ∉ tr) → (∀ h, removeRigidBody k h ∉ tr) →
  worlds (run tr s) !! k = worlds s !! k.
Proof.
  induction tr as [|a tr IH] using rev_ind; [done|].
  intros HC HB. rewrite run_snoc, <- IH.
  - destruct a as [bw h|bw h| | | | |]; simpl; try done;
      rewrite lookup_alter_ne; try done; intros ->.
    + apply (HC h), elem_of_app. right. by left.
    + apply (HB h), elem_of_app. right. by left.
  - intros h Hin. apply (HC h), elem_of_app. by left.
  - intros h Hin. apply (HB h), elem_of_app. by left.
Qed.

Lemma rigidBodyAttached_step a s k h :
  rigidBodyAttached (apply a s) k h =
  rigidBodyAttached s k h && bool_decide (a ≠ removeRigidBody k h).
Proof.
  destruct (decide (a = removeRigidBody k h)) as [->|Hne].
  - rewrite (bool_decide_eq_false_2 (_ ≠ _)) by (intros Hn; by apply Hn).
    rewrite andb_false_r. unfold rigidBodyAttached. simpl.
    rewrite lookup_alter_eq. destruct (worlds s !! k) as [w|]; simpl; [|done].
    apply bool_decide_eq_false_2.
    rewrite elem_of_difference, elem_of_singleton. tauto.
  - rewrite (bool_decide_eq_true_2 (_ ≠ _)) by done. rewrite andb_true_r.
    unfold rigidBodyAttached.
    destruct a as [bw h'|bw h'| | | | |]; simpl; try done.
    + rewrite lookup_alter. case_decide; [subst bw|done].
      by destruct (worlds s !! k).
    + rewrite lookup_alter. case_decide; [subst bw|done].
      destruct (worlds s !! k) as [w|]; simpl; [|done].
      apply bool_decide_ext.
      rewrite elem_of_difference, elem_of_singleton.
      split; [tauto | intros ?; split; [done | congruence]].
Qed.

Lemma constraintAttached_step a s k h :
  constraintAttached (apply a s) k h =
  constraintAttached s k h && bool_decide (a ≠ removeConstraint k h).
Proof.
  destruct (decide (a = removeConstraint k h)) as [->|Hne].
  - rewrite (bool_decide_eq_false_2 (_ ≠ _)) by (intros Hn; by apply Hn).
    rewrite andb_false_r. unfold constraintAttached. simpl.
    rewrite lookup_alter_eq. destruct (worlds s !! k) as [w|]; simpl; [|done].
    apply bool_decide_eq_false_2.
    rewrite elem_of_difference, elem_of_singleton. tauto.
  - rewrite (bool_decide_eq_true_2 (_ ≠ _)) by done. rewrite andb_true_r.
    unfold constraintAttached.
    destruct a as [bw h'|bw h'| | | | |]; simpl; try done.
    + rewrite lookup_alter. case_decide; [subst bw|done].
      destruct (worlds s !! k) as [w|]; simpl; [|done].
      apply bool_decide_ext.
      rewrite elem_of_difference, elem_of_singleton.
      split; [tauto | intros ?; split; [done | congruence]].
    + rewrite lookup_alter. case_decide; [subst bw|done].
      by destruct (worlds s !! k).
Qed.

Lemma rigidBodyAttached_run tr s k h :
  rigidBodyAttached (run tr s) k h =
  rigidBodyAttached s k h && bool_decide (removeRigidBody k h ∉ tr).
Proof.
  induction tr as [|a tr IH] using rev_ind.
  - change (run [] s) with s.
    rewrite (bool_decide_eq_true_2 (_ ∉ _)) by apply not_elem_of_nil.
    by rewrite andb_true_r.
  - rewrite run_snoc, rigidBodyAttached_step, IH, <- andb_assoc. f_equal.
    rewrite <- bool_decide_and. apply bool_decide_ext.
    rewrite elem_of_app, list_elem_of_singleton.
    split; [intros [? ?] [?|?]; congruence | intros Hn; split; intros ?; apply Hn; auto].
Qed.

Lemma constraintAttached_run tr s k h :
  constraintAttached (run tr s) k h =
  constraintAttached s k h && bool_decide (removeConstraint k h ∉ tr).
Proof.
  induction tr as [|a tr IH] using rev_ind.
  - change (run [] s) with s.
    rewrite (bool_decide_eq_true_2 (_ ∉ _)) by apply not_elem_of_nil.
    by rewrite andb_true_r.
  - rewrite run_snoc, constraintAttached_step, IH, <- andb_assoc. f_equal.
    rewrite <- bool_decide_and. apply bool_decide_ext.
    rewrite elem_of_app, list_elem_of_singleton.
    split; [intros [? ?] [?|?]; congruence | intros Hn; split; intros ?; apply Hn; auto].
Qed.

Lemma jointLoop_result bw idx es s tr :
  ∃ writes, Forall isJointWrite writes ∧
    (jointLoop bw idx es s tr = Done tt (run writes s) (tr ++ writes) ∨
     jointLoop bw idx es s tr =
       Faulted null_dereference (run writes s) (tr ++ writes)).
Proof.
  revert s tr. induction es as [|[k j] es IH]; intros s tr.
  - exists []. split; [constructor|]. left. simpl. unfold ret.
    by rewrite app_nil_r.
  - assert (Hstep : jointLoop bw idx ((k, j) :: es) s tr =
      match links s !! JointInfo.childLinkId j with
      | Some l =>
          if LinkInfo.model l =? idx then
            jointLoop bw idx es
              (run [removeConstraint bw (JointInfo.joint j);
                    eraseChildIdToParentId k; eraseJoint k] s)
              (tr ++ [removeConstraint bw (JointInfo.joint j);
                      eraseChildIdToParentId k; eraseJoint k])
          else jointLoop bw idx es s tr
      | None => Faulted null_dereference s tr
      end).
    { simpl. unfold bind at 1, links_subscript at 1.
      destruct (links s !! JointInfo.childLinkId j) as [l|]; [|done].
      destruct (LinkInfo.model l =? idx); [|done].
      unfold bind, act. simpl. by rewrite <- !app_assoc. }
    rewrite Hstep. clear Hstep.
    destruct (links s !! JointInfo.childLinkId j) as [l|].
    + destruct (LinkInfo.model l =? idx); [|apply IH].
      destruct (IH (run [removeConstraint bw (JointInfo.joint j);
                         eraseChildIdToParentId k; eraseJoint k] s)
                   (tr ++ [removeConstraint bw (JointInfo.joint j);
                           eraseChildIdToParentId k; eraseJoint k]))
        as (writes & HF & Hres).
      exists ([removeConstraint bw (JointInfo.joint j);
               eraseChildIdToParentId k; eraseJoint k] ++ writes).
      split; [repeat constructor; done|].
      rewrite run_app, app_assoc. exact Hres.
    + exists []. split; [constructor|]. right. by rewrite app_nil_r.
Qed.

Section Outcomes.
Context {registry : Registry}.

Lemma RemoveModelByIndex_Faulted w idx s tr0 f s' tr' :
  RemoveModelByIndex w idx s tr0 = Faulted f s' tr' →
  ∃ model writes,
    models s !! indexInContainerToId s w idx = Some model ∧
    Forall isJointWrite writes ∧ s' = run writes s ∧ tr' = tr0 ++ writes ∧
    match f with
    | out_of_range =>
        worlds s !! ModelInfo.world model = None ∧ writes = []
    | null_dereference =>
        is_Some (worlds s !! ModelInfo.world model) ∧ ¬ jointsResolve s
    end.
Proof.
  intros Hrun.
  destruct (models s !! indexInContainerToId s w idx) as [model|] eqn:Hm;
    [|by rewrite RemoveModelByIndex_absent in Hrun].
  exists model.
  destruct (worlds s !! ModelInfo.world model) as [wi|] eqn:Hw.
  - destruct (decide (jointsResolve s)) as [Hres|Hres];
      [by rewrite (RemoveModelByIndex_found w idx s tr0 model) in Hrun by eauto|].
    unfold RemoveModelByIndex, bind at 1, get at 1 in Hrun.
    rewrite Hm, Hw in Hrun. unfold bind at 1 2, get at 1 in Hrun.
    destruct (jointLoop_result (ModelInfo.world model) idx
                (map_to_list (joints s)) s tr0) as (writes & HF & [HD|HFl]).
    + rewrite HD in Hrun. unfold bind at 1 2, get at 1 in Hrun.
      rewrite collisionLoop_Done in Hrun.
      unfold bind at 1 2, get at 1 in Hrun.
      rewrite linkLoop_Done in Hrun. discriminate.
    + rewrite HFl in Hrun. injection Hrun as <- <- <-.
      exists writes. repeat split; eauto.
  - rewrite (RemoveModelByIndex_no_world _ _ _ _ model) in Hrun by done.
    injection Hrun as <- <- <-. exists []. repeat split; try done.
    by rewrite app_nil_r.
Qed.

(** Every outcome of a removal call is the run of the writes it reports.  *)
Lemma call_outcome c s :
  (∃ b tr, call c s [] = Done b (run tr s) tr) ∨
  (∃ f tr, call c s [] = Faulted f (run tr s) tr ∧ Forall isJointWrite tr).
Proof.
  assert (Hidx : ∀ w idx,
    (∃ b tr, RemoveModelByIndex w idx s [] = Done b (run tr s) tr) ∨
    (∃ f tr, RemoveModelByIndex w idx s [] = Faulted f (run tr s) tr ∧
             Forall isJointWrite tr)).
  { intros w idx.
    destruct (RemoveModelByIndex w idx s []) as [b s' tr|f s' tr] eqn:Hrun.
    - left. exists b, tr. f_equal.
      destruct (RemoveModelByIndex_Done _ _ _ _ _ _ _ Hrun)
        as [(-> & -> & -> & _)|(-> & Hres & model & Hm & Hw)]; [done|].
      rewrite (RemoveModelByIndex_found w idx s [] model Hm Hw Hres) in Hrun.
      simpl in Hrun. by injection Hrun as <- <-.
    - right. exists f, tr.
      apply RemoveModelByIndex_Faulted in Hrun
        as (model & writes & _ & HF & -> & -> & _). done. }
  destruct c as [m|w i|w n]; simpl.
  - rewrite RemoveModel_unfold. destruct (models s !! m); [apply Hidx|].
    left. by exists false, [].
  - apply Hidx.
  - rewrite RemoveModelByName_unfold.
    destruct (scanModels n (map_to_list (models s))) as [[|] entity];
      [apply Hidx|].
    left. by exists false, [].
Qed.

End Outcomes.

(** ** Which writes a cascade holds *)

Ltac in_block Hin :=
  rewrite ?elem_of_cons in Hin;
  repeat match type of Hin with
         | _ ∨ _ => destruct Hin as [Hin|Hin]
         end;
  try discriminate Hin; try (by apply elem_of_nil in Hin).

Lemma in_jointWrites a bw idx s :
  a ∈ jointWrites bw idx s ↔
  ∃ k j l, joints s !! k = Some j ∧
           links s !! JointInfo.childLinkId j = Some l ∧
           LinkInfo.model l = idx ∧
           (a = removeConstraint bw (JointInfo.joint j) ∨
            a = eraseChildIdToParentId k ∨ a = eraseJoint k).
Proof.
  unfold jointWrites. rewrite elem_of_flat_map_blocks. split.
  - intros ([k j] & He%elem_of_map_to_list & Hin).
    unfold jointBlock in Hin. simpl in Hin.
    destruct (links s !! JointInfo.childLinkId j) as [l|] eqn:Hl;
      [|by apply elem_of_nil in Hin].
    destruct (Z.eqb_spec (LinkInfo.model l) idx) as [Heq|Hne];
      [|by apply elem_of_nil in Hin].
    exists k, j, l. repeat split; try done.
    rewrite !elem_of_cons in Hin.
    destruct Hin as [?|[?|[?|Hin]]]; auto. by apply elem_of_nil in Hin.
  - intros (k & j & l & Hj & Hl & Hidx & Ha). exists (k, j).
    split; [by apply elem_of_map_to_list|].
    unfold jointBlock. simpl. rewrite Hl, (proj2 (Z.eqb_eq _ _) Hidx).
    rewrite !elem_of_cons. tauto.
Qed.

Lemma in_collisionWrites a idx s :
  a ∈ collisionWrites idx s ↔
  ∃ k c, collisions s !! k = Some c ∧ CollisionInfo.model c = idx ∧
         (a = eraseChildIdToParentId k ∨ a = eraseCollision k).
Proof.
  unfold collisionWrites. rewrite elem_of_flat_map_blocks. split.
  - intros ([k c] & He%elem_of_map_to_list & Hin).
    unfold collisionBlock in Hin. simpl in Hin.
    destruct (Z.eqb_spec (CollisionInfo.model c) idx) as [Heq|Hne];
      [|by apply elem_of_nil in Hin].
    exists k, c. repeat split; try done.
    rewrite !elem_of_cons in Hin.
    destruct Hin as [?|[?|Hin]]; auto. by apply elem_of_nil in Hin.
  - intros (k & c & Hc & Hidx & Ha). exists (k, c).
    split; [by apply elem_of_map_to_list|].
    unfold collisionBlock. simpl. rewrite (proj2 (Z.eqb_eq _ _) Hidx).
    rewrite !elem_of_cons. tauto.
Qed.

Lemma in_linkWrites a bw idx s :
  a ∈ linkWrites bw idx s ↔
  ∃ k l, links s !! k = Some l ∧ LinkInfo.model l = idx ∧
         (a = removeRigidBody bw (LinkInfo.link l) ∨
          a = eraseChildIdToParentId k ∨ a = eraseLink k).
Proof.
  unfold linkWrites. rewrite elem_of_flat_map_blocks. split.
  - intros ([k l] & He%elem_of_map_to_list & Hin).
    unfold linkBlock in Hin. simpl in Hin.
    destruct (Z.eqb_spec (LinkInfo.model l) idx) as [Heq|Hne];
      [|by apply elem_of_nil in Hin].
    exists k, l. repeat split; try done.
    rewrite !elem_of_cons in Hin.
    destruct Hin as [?|[?|[?|Hin]]]; auto. by apply elem_of_nil in Hin.
  - intros (k & l & Hl & Hidx & Ha). exists (k, l).
    split; [by apply elem_of_map_to_list|].
    unfold linkBlock. simpl. rewrite (proj2 (Z.eqb_eq _ _) Hidx).
    rewrite !elem_of_cons. tauto.
Qed.

Lemma in_cascadeWrites a bw e idx s :
  a ∈ cascadeWrites bw e idx s ↔
  a ∈ jointWrites bw idx s ∨ a ∈ collisionWrites idx s ∨
  a ∈ linkWrites bw idx s ∨ a = eraseModel e ∨
  a = eraseChildIdToParentId idx.
Proof.
  unfold cascadeWrites, modelWrites.
  rewrite !elem_of_app, !elem_of_cons, elem_of_nil. tauto.
Qed.

Lemma removeRigidBody_in_cascade b h bw e idx s :
  removeRigidBody b h ∈ cascadeWrites bw e idx s ↔
  b = bw ∧ ∃ k l, links s !! k = Some l ∧ LinkInfo.model l = idx ∧
                  LinkInfo.link l = h.
Proof.
  rewrite in_cascadeWrites, in_jointWrites, in_collisionWrites, in_linkWrites.
  split.
  - intros [(?&?&?&_&_&_&[?|[?|?]])|[(?&?&_&_&[?|?])|
            [(k&l&Hl&Hidx&[Ha|[?|?]])|[?|?]]]]; try discriminate.
    injection Ha as -> ->. split; [done|]. exists k, l. auto.
  - intros (-> & k & l & Hl & Hidx & <-). right. right. left.
    exists k, l. auto.
Qed.

Lemma removeConstraint_in_cascade b h bw e idx s :
  removeConstraint b h ∈ cascadeWrites bw e idx s ↔
  b = bw ∧ ∃ k j l, joints s !! k = Some j ∧
                    links s !! JointInfo.childLinkId j = Some l ∧
                    LinkInfo.model l = idx ∧ JointInfo.joint j = h.
Proof.
  rewrite in_cascadeWrites, in_jointWrites, in_collisionWrites, in_linkWrites.
  split.
  - intros [(k&j&l&Hj&Hl&Hidx&[Ha|[?|?]])|[(?&?&_&_&[?|?])|
            [(?&?&_&_&[?|[?|?]])|[?|?]]]]; try discriminate.
    injection Ha as -> ->. split; [done|]. exists k, j, l. auto.
  - intros (-> & k & j & l & Hj & Hl & Hidx & <-). left.
    exists k, j, l. auto.
Qed.

Lemma eraseChildIdToParentId_in_cascade k bw e idx s :
  eraseChildIdToParentId k ∈ cascadeWrites bw e idx s ↔
  k = idx ∨ eraseJoint k ∈ cascadeWrites bw e idx s ∨
  eraseCollision k ∈ cascadeWrites bw e idx s ∨
  eraseLink k ∈ cascadeWrites bw e idx s.
Proof.
  rewrite !in_cascadeWrites, !in_jointWrites, !in_collisionWrites,
    !in_linkWrites.
  split.
  - intros [(k'&j&l&Hj&Hl&Hidx&[?|[Ha|?]])|[(k'&c&Hc&Hidx&[Ha|?])|
            [(k'&l&Hl&Hidx&[?|[Ha|?]])|[?|Ha]]]]; try discriminate;
      injection Ha as ->.
    + right. left. left. exists k', j, l. repeat split; auto.
    + right. right. left. right. left. exists k', c. repeat split; auto.
    + right. right. right. right. right. left. exists k', l. repeat split; auto.
    + by left.
  - intros [->|[H|[H|H]]].
    + by repeat right.
    + destruct H as [(k'&j&l&Hj&Hl&Hidx&[?|[?|Ha]])|[(?&?&_&_&[?|?])|
            [(?&?&_&_&[?|[?|?]])|[?|?]]]]; try discriminate.
      injection Ha as ->. left. exists k', j, l. repeat split; auto.
    + destruct H as [(?&?&?&_&_&_&[?|[?|?]])|[(k'&c&Hc&Hidx&[?|Ha])|
            [(?&?&_&_&[?|[?|?]])|[?|?]]]]; try discriminate.
      injection Ha as ->. right. left. exists k', c. repeat split; auto.
    + destruct H as [(?&?&?&_&_&_&[?|[?|?]])|[(?&?&_&_&[?|?])|
            [(k'&l&Hl&Hidx&[?|[?|Ha]])|[?|?]]]]; try discriminate.
      injection Ha as ->. right. right. left. exists k', l. repeat split; auto.
Qed.

Section MoreProperties.
Context {registry : Registry}.

Lemma call_true_by_index c s s' tr :
  call c s [] = Done true s' tr →
  ∃ w idx, RemoveModelByIndex w idx s [] = Done true s' tr.
Proof.
  destruct c as [m|w i|w n]; simpl.
  - rewrite RemoveModel_unfold. destruct (models s !! m); [eauto|discriminate].
  - eauto.
  - rewrite RemoveModelByName_unfold.
    destruct (scanModels n (map_to_list (models s))) as [[|] entity];
      [eauto|discriminate].
Qed.

Lemma RemoveModelByIndex_true_run w idx s s' tr :
  RemoveModelByIndex w idx s [] = Done true s' tr →
  ∃ model,
    models s !! indexInContainerToId s w idx = Some model ∧
    is_Some (worlds s !! ModelInfo.world model) ∧ jointsResolve s ∧
    tr = cascadeWrites (ModelInfo.world model)
           (indexInContainerToId s w idx) idx s ∧
    s' = run tr s.
Proof.
  intros Hrun.
  destruct (RemoveModelByIndex_Done _ _ _ _ _ _ _ Hrun)
    as [(? & _)|(_ & Hres & model & Hm & Hw)]; [discriminate|].
  rewrite (RemoveModelByIndex_found w idx s [] model) in Hrun by done.
  simpl in Hrun. injection Hrun as <- <-. exists model. done.
Qed.

Lemma not_jointsResolve s :
  ¬ jointsResolve s ↔
  ∃ k j, joints s !! k = Some j ∧ links s !! JointInfo.childLinkId j = None.
Proof.
  split.
  - intros Hn.
    apply (map_not_Forall
             (λ (_ : Z) j, is_Some (links s !! JointInfo.childLinkId j)))
      in Hn as (k & j & Hj & Hl).
    exists k, j. split; [done|]. by apply eq_None_not_Some.
  - intros (k & j & Hj & Hl) Hres. destruct (Hres k j Hj) as [l Hl'].
    congruence.
Qed.

(** X1. How a removal by index can end.  With [e] the identity the registry
    gives for the index: the call returns false exactly when [e] is not a
    key of the model map; it throws [std::out_of_range] exactly when the
    model is there and its world is not a key of the world map; it ends in a
    null dereference exactly when model and world are there and some joint's
    child link is missing from the link map; and it returns true exactly
    when model and world are there and every joint resolves its child
    link. *)
Theorem removal_by_index_outcomes w idx s :
  ((∃ s' tr, RemoveModelByIndex w idx s [] = Done false s' tr) ↔
   models s !! indexInContainerToId s w idx = None) ∧
  ((∃ s' tr, RemoveModelByIndex w idx s [] = Faulted out_of_range s' tr) ↔
   ∃ model, models s !! indexInContainerToId s w idx = Some model ∧
            worlds s !! ModelInfo.world model = None) ∧
  ((∃ s' tr, RemoveModelByIndex w idx s [] =
             Faulted null_dereference s' tr) ↔
   ∃ model, models s !! indexInContainerToId s w idx = Some model ∧
            is_Some (worlds s !! ModelInfo.world model) ∧
            ∃ k j, joints s !! k = Some j ∧
                   links s !! JointInfo.childLinkId j = None) ∧
  ((∃ s' tr, RemoveModelByIndex w idx s [] = Done true s' tr) ↔
   ∃ model, models s !! indexInContainerToId s w idx = Some model ∧
            is_Some (worlds s !! ModelInfo.world model) ∧ jointsResolve s).
Proof.
  split; [|split; [|split]]; split.
  - intros (s' & tr & Hrun).
    apply RemoveModelByIndex_Done in Hrun as [(_ & _ & _ & ?)|(? & _)];
      [done | discriminate].
  - intros Hm. eexists _, _. by apply RemoveModelByIndex_absent.
  - intros (s' & tr & Hrun).
    apply RemoveModelByIndex_Faulted in Hrun
      as (model & writes & Hm & _ & _ & _ & Hw & _). eauto.
  - intros (model & Hm & Hw). eexists _, _.
    by apply (RemoveModelByIndex_no_world _ _ _ _ model).
  - intros (s' & tr & Hrun).
    apply RemoveModelByIndex_Faulted in Hrun
      as (model & writes & Hm & _ & _ & _ & Hw & Hres).
    exists model. split; [done|]. split; [done|]. by apply not_jointsResolve.
  - intros (model & Hm & Hw & k & j & Hj & Hl).
    by apply (RemoveModelByIndex_dangling _ _ _ _ model k j).
  - intros (s' & tr & Hrun).
    apply RemoveModelByIndex_true_run in Hrun
      as (model & Hm & Hw & Hres & _). eauto.
  - intros (model & Hm & Hw & Hres). eexists _, _.
    by apply (RemoveModelByIndex_found _ _ _ _ model).
Qed.


(** X3. The records after a removal call that returned true.  Let [w] and
    [idx] be the world and index with which the call entered
    [RemoveModelByIndex] (its own arguments for a removal by index; the
    model's world and its index for [RemoveModel]; the world argument and
    the index of the first model with the name for [RemoveModelByName]), and
    [e] the identity the registry gives for [idx] in [w].  The model map has
    lost exactly the record of [e]; the link and collision maps have lost
    exactly the records whose owner field equals [idx]; the joint map has
    lost exactly the joints whose child link has owner field [idx]; every
    other record is unchanged. *)
Theorem successful_call_final_records c s s' tr :
  call c s [] = Done true s' tr →
  ∃ w idx,
    callTarget c s = Some (w, idx) ∧
    is_Some (models s !! indexInContainerToId s w idx) ∧
    models s' = delete (indexInContainerToId s w idx) (models s) ∧
    (∀ k, links s' !! k =
          match links s !! k with
          | Some l => if LinkInfo.model l =? idx then None else Some l
          | None => None
          end) ∧
    (∀ k, collisions s' !! k =
          match collisions s !! k with
          | Some c => if CollisionInfo.model c =? idx then None else Some c
          | None => None
          end) ∧
    (∀ k, joints s' !! k =
          match joints s !! k with
          | Some j =>
              match links s !! JointInfo.childLinkId j with
              | Some l => if LinkInfo.model l =? idx then None else Some j
              | None => Some j
              end
          | None => None
          end).
Proof.
  intros Hrun.
  assert (Htarget : ∃ w idx, callTarget c s = Some (w, idx) ∧
                             RemoveModelByIndex w idx s [] = Done true s' tr).
  { destruct c as [m|w i|w n]; simpl in *.
    - rewrite RemoveModel_unfold in Hrun.
      destruct (models s !! m) as [model|]; [eauto|discriminate].
    - eauto.
    - rewrite RemoveModelByName_unfold in Hrun.
      destruct (scanModels n (map_to_list (models s))) as [[|] entity];
        [eauto|discriminate]. }
  destruct Htarget as (w & idx & Ht & Hidx). exists w, idx.
  split; [done|].
  destruct (RemoveModelByIndex_true_run _ _ _ _ _ Hidx) as (model & Hm & _).
  split; [eauto|]. exact (cascade_is_keyed_by_index w idx s s' tr Hidx).
Qed.

(** X4. The child-to-parent map after a removal by index that returned
    true: the entry keyed by the index is gone, the entry keyed by each
    erased link, collision or joint record is gone, and every other entry is
    unchanged. *)
Theorem removal_by_index_child_to_parent w idx s s' tr :
  RemoveModelByIndex w idx s [] = Done true s' tr →
  (∀ k, k = idx ∨ erasedRecord s s' k → childIdToParentId s' !! k = None) ∧
  (∀ k, k ≠ idx → ¬ erasedRecord s s' k →
        childIdToParentId s' !! k = childIdToParentId s !! k).
Proof.
  intros Hrun.
  destruct (RemoveModelByIndex_true_run _ _ _ _ _ Hrun)
    as (model & Hm & Hw & Hres & Htr & Hs').
  set (bw := ModelInfo.world model) in *.
  set (e := indexInContainerToId s w idx) in *.
  assert (Herased : ∀ k, erasedRecord s s' k ↔
            eraseJoint k ∈ tr ∨ eraseCollision k ∈ tr ∨ eraseLink k ∈ tr).
  { intros k. unfold erasedRecord. rewrite Hs'.
    rewrite links_run, collisions_run, joints_run. split.
    - intros [[[l Hl] Hn]|[[[c Hc] Hn]|[[j Hj] Hn]]];
        case_decide; auto; congruence.
    - rewrite Htr.
      intros [Hin|[Hin|Hin]].
      + right. right. rewrite decide_True by done.
        apply eraseJoint_in_cascade in Hin as (j & _ & Hj & _). eauto.
      + right. left. rewrite decide_True by done.
        apply eraseCollision_in_cascade in Hin as (c & Hc & _). eauto.
      + left. rewrite decide_True by done.
        apply eraseLink_in_cascade in Hin as (l & Hl & _). eauto. }
  assert (Hin : ∀ k, eraseChildIdToParentId k ∈ tr ↔
                     k = idx ∨ erasedRecord s s' k).
  { intros k. rewrite Herased, Htr.
    apply eraseChildIdToParentId_in_cascade. }
  split; intros k.
  - intros Hk. rewrite Hs', childIdToParentId_run.
    rewrite decide_True; [done|]. by apply Hin.
  - intros Hne Hk. rewrite Hs', childIdToParentId_run.
    rewrite decide_False; [done|]. rewrite Hin. tauto.
Qed.

(** X5. The native worlds after a removal by index that returned true, with
    [bw] the world of the removed model: every other world record is
    unchanged; world [bw] keeps its name and configuration handles; a rigid
    body is attached to it afterwards exactly when it was attached before
    and is not the body of a link whose owner field equals the index; a
    constraint is attached afterwards exactly when it was attached before
    and is not the constraint of a joint whose child link has that owner
    field. *)
Theorem removal_by_index_native_worlds w idx s s' tr :
  RemoveModelByIndex w idx s [] = Done true s' tr →
  ∃ model,
    models s !! indexInContainerToId s w idx = Some model ∧
    (∀ k, k ≠ ModelInfo.world model → worlds s' !! k = worlds s !! k) ∧
    (∀ k, worldSettings <$> worlds s' !! k = worldSettings <$> worlds s !! k) ∧
    (∀ h, rigidBodyAttached s' (ModelInfo.world model) h = true ↔
          rigidBodyAttached s (ModelInfo.world model) h = true ∧
          ¬ ∃ k l, links s !! k = Some l ∧ LinkInfo.model l = idx ∧
                   LinkInfo.link l = h) ∧
    (∀ h, constraintAttached s' (ModelInfo.world model) h = true ↔
          constraintAttached s (ModelInfo.world model) h = true ∧
          ¬ ∃ k j l, joints s !! k = Some j ∧
                     links s !! JointInfo.childLinkId j = Some l ∧
                     LinkInfo.model l = idx ∧ JointInfo.joint j = h).
Proof.
  intros Hrun.
  destruct (RemoveModelByIndex_true_run _ _ _ _ _ Hrun)
    as (model & Hm & Hw & Hres & Htr & ->).
  exists model. split; [done|]. split; [|split; [|split]].
  - intros k Hk. apply worlds_run_other; intros h Hin; rewrite Htr in Hin.
    + apply removeConstraint_in_cascade in Hin as [? _]. done.
    + apply removeRigidBody_in_cascade in Hin as [? _]. done.
  - intros k. apply worldSettings_run.
  - intros h. rewrite rigidBodyAttached_run, andb_true_iff.
    rewrite bool_decide_eq_true, Htr, removeRigidBody_in_cascade. tauto.
  - intros h. rewrite constraintAttached_run, andb_true_iff.
    rewrite bool_decide_eq_true, Htr, removeConstraint_in_cascade. tauto.
Qed.

(** X6. [GetWorldCount] is not changed by any removal call, whether it
    returns or faults: the world map keeps its keys. *)
Theorem removal_keeps_world_count c s engine :
  match call c s [] with
  | Done _ s' _ | Faulted _ s' _ =>
      GetWorldCount s' engine = GetWorldCount s engine ∧
      dom (worlds s') = dom (worlds s)
  end.
Proof.
  assert (Hrun : ∀ tr, GetWorldCount (run tr s) engine = GetWorldCount s engine ∧
                       dom (worlds (run tr s)) = dom (worlds s)).
  { intros tr. split; [|apply dom_worlds_run].
    unfold GetWorldCount. f_equal.
    rewrite <- !size_dom. by rewrite dom_worlds_run. }
  destruct (call_outcome c s) as [(b & tr & ->)|(f & tr & -> & _)];
    apply Hrun.
Qed.

(** X7. A removal call that returns, true or false, has added nothing:
    every record and every child-to-parent entry of the store it leaves was
    in the store before, unchanged, and every native handle attached
    afterwards was attached before. *)
Theorem returning_removal_never_adds c s b s' tr :
  call c s [] = Done b s' tr →
  models s' ⊆ models s ∧ links s' ⊆ links s ∧
  collisions s' ⊆ collisions s ∧ joints s' ⊆ joints s ∧
  childIdToParentId s' ⊆ childIdToParentId s ∧
  (∀ bw h, rigidBodyAttached s' bw h = true →
           rigidBodyAttached s bw h = true) ∧
  (∀ bw h, constraintAttached s' bw h = true →
           constraintAttached s bw h = true).
Proof.
  intros Hrun.
  assert (Hs' : ∃ t, s' = run t s).
  { destruct (call_outcome c s) as [(b' & t & Hc)|(f & t & Hc & _)];
      rewrite Hrun in Hc; [|discriminate].
    exists t. by injection Hc as _ -> _. }
  destruct Hs' as (t & ->). repeat split.
  - apply map_subseteq_spec. intros k x. rewrite models_run.
    by case_decide.
  - apply map_subseteq_spec. intros k x. rewrite links_run.
    by case_decide.
  - apply map_subseteq_spec. intros k x. rewrite collisions_run.
    by case_decide.
  - apply map_subseteq_spec. intros k x. rewrite joints_run.
    by case_decide.
  - apply map_subseteq_spec. intros k x. rewrite childIdToParentId_run.
    by case_decide.
  - intros bw h. rewrite rigidBodyAttached_run, andb_true_iff. tauto.
  - intros bw h. rewrite constraintAttached_run, andb_true_iff. tauto.
Qed.

(** X8. [ModelRemoved] across a removal call that returns.  When the call
    returns true there is exactly one identity, a model of the store, for
    which [ModelRemoved] turns from false to true, and the model map has one
    record less; for every other identity [ModelRemoved] answers as before.
    When the call returns false [ModelRemoved] answers as before for every
    identity. *)
Theorem ModelRemoved_across_call c s b s' tr :
  call c s [] = Done b s' tr →
  if b then
    ∃ e, ModelRemoved s e = false ∧ ModelRemoved s' e = true ∧
         (∀ m, m ≠ e → ModelRemoved s' m = ModelRemoved s m) ∧
         (size (models s') + 1 = size (models s))%nat
  else ∀ m, ModelRemoved s' m = ModelRemoved s m.
Proof.
  intros Hrun. destruct b.
  - apply call_true_by_index in Hrun as (w & idx & Hrun).
    destruct (RemoveModelByIndex_true_run _ _ _ _ _ Hrun)
      as (model & Hm & _ & _ & -> & ->).
    exists (indexInContainerToId s w idx). unfold ModelRemoved.
    rewrite cascade_models. split; [|split; [|split]].
    + apply bool_decide_eq_false_2. congruence.
    + apply bool_decide_eq_true_2, lookup_delete_eq.
    + intros m Hne. apply bool_decide_ext. by rewrite lookup_delete_ne.
    + rewrite map_size_delete, Hm. simpl.
      pose proof (map_size_non_empty_iff (models s)) as Hsz.
      assert (models s ≠ ∅) by (intros Hempty; by rewrite Hempty in Hm).
      assert (size (models s) ≠ 0%nat) by tauto. lia.
  - destruct (call_outcome c s) as [(b' & tr' & Hc)|(f & tr' & Hc & _)];
      rewrite Hrun in Hc; [|discriminate].
    assert (Hs : s' = s).
    { destruct c as [m|w i|w n]; simpl in Hrun.
      - rewrite RemoveModel_unfold in Hrun. destruct (models s !! m).
        + apply RemoveModelByIndex_Done in Hrun
            as [(_ & ? & _)|(? & _)]; [done|discriminate].
        + by injection Hrun as <- _.
      - apply RemoveModelByIndex_Done in Hrun
          as [(_ & ? & _)|(? & _)]; [done|discriminate].
      - rewrite RemoveModelByName_unfold in Hrun.
        destruct (scanModels n (map_to_list (models s))) as [[|] entity].
        + apply RemoveModelByIndex_Done in Hrun
            as [(_ & ? & _)|(? & _)]; [done|discriminate].
        + by injection Hrun as <- _. }
    by rewrite Hs.
Qed.

(** X9. The scans do not depend on the order in which a map is iterated.
    Run over any two orderings of the same entries from the same store, a
    scan reaches the same store, by the same writes up to their order (for
    the joint scan: provided every visited joint's child link is in the
    link map, so that the scan does not fault). *)
Theorem scans_independent_of_iteration_order bw idx s tr :
  (∀ es es' : list (Z * JointInfo.t),
     es ≡ₚ es' →
     (∀ e, e ∈ es → is_Some (links s !! JointInfo.childLinkId e.2)) →
     ∃ s1 t t', jointLoop bw idx es s tr = Done tt s1 (tr ++ t) ∧
                jointLoop bw idx es' s tr = Done tt s1 (tr ++ t') ∧
                t ≡ₚ t') ∧
  (∀ es es' : list (Z * CollisionInfo.t),
     es ≡ₚ es' →
     ∃ s1 t t', collisionLoop idx es s tr = Done tt s1 (tr ++ t) ∧
                collisionLoop idx es' s tr = Done tt s1 (tr ++ t') ∧
                t ≡ₚ t') ∧
  (∀ es es' : list (Z * LinkInfo.t),
     es ≡ₚ es' →
     ∃ s1 t t', linkLoop bw idx es s tr = Done tt s1 (tr ++ t) ∧
                linkLoop bw idx es' s tr = Done tt s1 (tr ++ t') ∧
                t ≡ₚ t').
Proof.
  split; [|split].
  - intros es es' Hp Hes.
    assert (Ht : flat_map (jointBlock bw idx (links s)) es ≡ₚ
                 flat_map (jointBlock bw idx (links s)) es')
      by (by apply Permutation_flat_map).
    eexists _, _, _. split; [by apply jointLoop_Done|].
    split; [|exact Ht].
    rewrite jointLoop_Done by (intros e He; apply Hes; by rewrite Hp).
    f_equal. symmetry. by apply run_Permutation.
  - intros es es' Hp.
    assert (Ht : flat_map (collisionBlock idx) es ≡ₚ
                 flat_map (collisionBlock idx) es')
      by (by apply Permutation_flat_map).
    eexists _, _, _. split; [apply collisionLoop_Done|].
    split; [|exact Ht].
    rewrite collisionLoop_Done. f_equal. symmetry. by apply run_Permutation.
  - intros es es' Hp.
    assert (Ht : flat_map (linkBlock bw idx) es ≡ₚ
                 flat_map (linkBlock bw idx) es')
      by (by apply Permutation_flat_map).
    eexists _, _, _. split; [apply linkLoop_Done|].
    split; [|exact Ht].
    rewrite linkLoop_Done. f_equal. symmetry. by apply run_Permutation.
Qed.

(** X10. The joint scan looks at the child link only, so a removal can
    leave a joint without its parent link: after a removal by index that
    returned true, a joint whose child link has an owner field other than
    the index is still in the store with its child link, and when its parent
    link had the index as owner field that parent link is gone. *)
Theorem removal_leaves_joint_without_parent w idx s s' tr k j lc lp :
  RemoveModelByIndex w idx s [] = Done true s' tr →
  joints s !! k = Some j →
  links s !! JointInfo.childLinkId j = Some lc → LinkInfo.model lc ≠ idx →
  links s !! JointInfo.parentLinkId j = Some lp → LinkInfo.model lp = idx →
  joints s' !! k = Some j ∧
  links s' !! JointInfo.childLinkId j = Some lc ∧
  links s' !! JointInfo.parentLinkId j = None.
Proof.
  intros (_ & HL & _ & HJ)%cascade_is_keyed_by_index Hj Hc Hcm Hp Hpm.
  rewrite HJ, !HL, Hj, Hc, Hp.
  destruct (Z.eqb_spec (LinkInfo.model lc) idx); [done|].
  by rewrite (proj2 (Z.eqb_eq _ _) Hpm).
Qed.

(** X11. Removal by name is idempotent.  When exactly one model has the
    name, the call is made with the world that owns that model, the registry
    maps the model's index in that world back to the model, the world is in
    the world map and every joint resolves its child link: the first
    [RemoveModelByName] returns true and erases that model, and afterwards
    [RemoveModelByName] with the same name returns false and changes
    nothing, whatever world it is called with. *)
Theorem removal_by_name_is_idempotent s name m model :
  models s !! m = Some model → ModelInfo.name model = name →
  (∀ m' model', models s !! m' = Some model' →
                ModelInfo.name model' = name → m' = m) →
  indexInContainerToId s (ModelInfo.world model) (idToIndexInContainer s m)
    = m →
  is_Some (worlds s !! ModelInfo.world model) →
  jointsResolve s →
  ∃ s1 tr, RemoveModelByName (ModelInfo.world model) name s [] =
             Done true s1 tr ∧
           ModelRemoved s1 m = true ∧
           ∀ w, RemoveModelByName w name s1 [] = Done false s1 [].
Proof.
  intros Hm Hname Huniq Hround Hw Hres.
  eexists _, _. split; [|split].
  - rewrite RemoveModelByName_unfold.
    rewrite (scanModels_unique name (models s) m model) by done.
    apply (RemoveModelByIndex_found _ _ _ _ model); rewrite ?Hround; done.
  - unfold ModelRemoved. apply bool_decide_eq_true_2.
    rewrite cascade_models, Hround. apply lookup_delete_eq.
  - intros w. rewrite RemoveModelByName_unfold.
    rewrite scanModels_none; [done|].
    intros [k model'] He%elem_of_map_to_list. simpl.
    rewrite cascade_models, Hround in He.
    apply lookup_delete_Some in He as [Hne He].
    intros Hn. apply Hne. symmetry. by apply (Huniq k model').
Qed.

(** ** Calls made after earlier writes *)

Lemma shift_shift {A} t1 t2 (r : Result A) :
  shift t1 (shift t2 r) = shift (t1 ++ t2) r.
Proof. destruct r; simpl; by rewrite app_assoc. Qed.

Lemma shift_nil {A} (r : Result A) : shift [] r = r.
Proof. by destruct r. Qed.

Lemma jointLoop_cons bw idx k j es s tr :
  jointLoop bw idx ((k, j) :: es) s tr =
    match links s !! JointInfo.childLinkId j with
    | Some l =>
        if LinkInfo.model l =? idx then
          jointLoop bw idx es
            (run [removeConstraint bw (JointInfo.joint j);
                  eraseChildIdToParentId k; eraseJoint k] s)
            (tr ++ [removeConstraint bw (JointInfo.joint j);
                    eraseChildIdToParentId k; eraseJoint k])
        else jointLoop bw idx es s tr
    | None => Faulted null_dereference s tr
    end.
Proof.
  simpl. unfold bind at 1, links_subscript at 1.
  destruct (links s !! JointInfo.childLinkId j) as [l|]; [|done].
  destruct (LinkInfo.model l =? idx); [|done].
  unfold bind, act. simpl. by rewrite <- !app_assoc.
Qed.

Lemma jointLoop_shift bw idx es s tr0 :
  jointLoop bw idx es s tr0 = shift tr0 (jointLoop bw idx es s []).
Proof.
  revert s tr0. induction es as [|[k j] es IH]; intros s tr0.
  - simpl. unfold ret. simpl. by rewrite app_nil_r.
  - rewrite !jointLoop_cons.
    destruct (links s !! JointInfo.childLinkId j) as [l|];
      [|simpl; by rewrite app_nil_r].
    destruct (LinkInfo.model l =? idx); [|apply IH].
    rewrite IH. symmetry. rewrite IH, shift_shift. reflexivity.
Qed.

Lemma RemoveModelByIndex_shift w idx s tr0 :
  RemoveModelByIndex w idx s tr0 = shift tr0 (RemoveModelByIndex w idx s []).
Proof.
  unfold RemoveModelByIndex, bind, get, throw.
  destruct (models s !! indexInContainerToId s w idx) as [model|];
    [|unfold ret; simpl; by rewrite app_nil_r].
  destruct (worlds s !! ModelInfo.world model) as [wi|];
    [|simpl; by rewrite app_nil_r].
  rewrite jointLoop_shift.
  destruct (jointLoop (ModelInfo.world model) idx (map_to_list (joints s)) s [])
    as [[] s1 t1|f s1 t1]; [|done].
  simpl. rewrite !collisionLoop_Done, !linkLoop_Done.
  unfold act, ret. simpl. by rewrite <- !app_assoc.
Qed.

Lemma call_shift c s tr0 : call c s tr0 = shift tr0 (call c s []).
Proof.
  destruct c as [m|w i|w n]; simpl.
  - rewrite !RemoveModel_unfold. destruct (models s !! m).
    + apply RemoveModelByIndex_shift.
    + simpl. by rewrite app_nil_r.
  - apply RemoveModelByIndex_shift.
  - rewrite !RemoveModelByName_unfold.
    destruct (scanModels n (map_to_list (models s))) as [[|] entity].
    + apply RemoveModelByIndex_shift.
    + simpl. by rewrite app_nil_r.
Qed.

Lemma callAll_cons c cs s tr0 :
  callAll (c :: cs) s tr0 =
    match call c s [] with
    | Done b s1 t1 =>
        match callAll cs s1 (tr0 ++ t1) with
        | Done bs s2 t2 => Done (b :: bs) s2 t2
        | Faulted f s2 t2 => Faulted f s2 t2
        end
    | Faulted f s1 t1 => Faulted f s1 (tr0 ++ t1)
    end.
Proof.
  simpl. unfold bind at 1. rewrite call_shift.
  destruct (call c s []) as [b s1 t1|f s1 t1]; simpl; [|done].
  unfold bind. by destruct (callAll cs s1 (tr0 ++ t1)).
Qed.

Lemma call_Done_models c s b s' tr :
  call c s [] = Done b s' tr →
  if b then ∃ e model, models s !! e = Some model ∧
                       models s' = delete e (models s)
  else s' = s.
Proof.
  intros Hrun. destruct b.
  - apply call_true_by_index in Hrun as (w & idx & Hrun).
    destruct (RemoveModelByIndex_true_run _ _ _ _ _ Hrun)
      as (model & Hm & _ & _ & -> & ->).
    exists (indexInContainerToId s w idx), model.
    split; [done | apply cascade_models].
  - destruct c as [m|w i|w n]; simpl in Hrun.
    + rewrite RemoveModel_unfold in Hrun. destruct (models s !! m).
      * apply RemoveModelByIndex_Done in Hrun
          as [(_ & ? & _)|(? & _)]; [done|discriminate].
      * by injection Hrun as <- _.
    + apply RemoveModelByIndex_Done in Hrun
        as [(_ & ? & _)|(? & _)]; [done|discriminate].
    + rewrite RemoveModelByName_unfold in Hrun.
      destruct (scanModels n (map_to_list (models s))) as [[|] entity].
      * apply RemoveModelByIndex_Done in Hrun
          as [(_ & ? & _)|(? & _)]; [done|discriminate].
      * by injection Hrun as <- _.
Qed.

Lemma modelsResolve_run tr s : modelsResolve s → modelsResolve (run tr s).
Proof.
  intros Hres m model Hm. rewrite models_run in Hm.
  case_decide; [discriminate|]. apply elem_of_dom.
  rewrite dom_worlds_run. apply elem_of_dom. by apply (Hres m).
Qed.

Lemma call_well_formed c s :
  jointsResolve s → modelsResolve s →
  ∃ b s' tr, call c s [] = Done b s' tr ∧
             jointsResolve s' ∧ modelsResolve s'.
Proof.
  intros HJ HM.
  destruct (call_outcome c s) as [(b & tr & Hc)|(f & tr & Hc & _)].
  - exists b, (run tr s), tr. split; [done|].
    split; [by apply (jointsResolve_preserved c s b _ tr)|].
    by apply modelsResolve_run.
  - exfalso.
    assert (Hidx : ∃ w idx, RemoveModelByIndex w idx s [] =
                            Faulted f (run tr s) tr).
    { destruct c as [m|w i|w n]; simpl in Hc.
      - rewrite RemoveModel_unfold in Hc.
        destruct (models s !! m); [eauto|discriminate].
      - eauto.
      - rewrite RemoveModelByName_unfold in Hc.
        destruct (scanModels n (map_to_list (models s))) as [[|] entity];
          [eauto|discriminate]. }
    destruct Hidx as (w & idx & Hidx).
    apply RemoveModelByIndex_Faulted in Hidx
      as (model & writes & Hm & _ & _ & _ & Hf).
    destruct f.
    + destruct Hf as [Hw _]. destruct (HM _ _ Hm) as [wi Hwi]. congruence.
    + destruct Hf as [_ Hn]. by apply Hn.
Qed.

(** X12. Well-formed stores never fault.  On a store in which every
    joint's child link is in the link map and every model's world is in the
    world map, any sequence of removal calls runs to its end, each call
    returning true or false, and the store it leaves is again well formed. *)
Theorem removal_sequence_never_faults cs s :
  jointsResolve s → modelsResolve s →
  ∃ bs s' tr, callAll cs s [] = Done bs s' tr ∧ length bs = length cs ∧
              jointsResolve s' ∧ modelsResolve s'.
Proof.
  assert (Hgen : ∀ cs s tr0, jointsResolve s → modelsResolve s →
    ∃ bs s' tr, callAll cs s tr0 = Done bs s' tr ∧ length bs = length cs ∧
                jointsResolve s' ∧ modelsResolve s').
  { clear cs s. induction cs as [|c cs IH]; intros s tr0 HJ HM.
    - exists [], s, tr0. done.
    - destruct (call_well_formed c s HJ HM) as (b & s1 & t1 & Hc & HJ1 & HM1).
      destruct (IH s1 (tr0 ++ t1) HJ1 HM1) as (bs & s2 & t2 & Hcs & Hlen & ?).
      exists (b :: bs), s2, t2. rewrite callAll_cons, Hc, Hcs.
      split; [done|]. split; [simpl; by rewrite Hlen | done]. }
  apply Hgen.
Qed.

(** X13. A sequence of removal calls that runs to its end has at most as
    many calls returning true as the model map had records: each call that
    returns true erases exactly one model record and each call that returns
    false erases none. *)
Theorem successes_bounded_by_model_count cs s bs s' tr :
  callAll cs s [] = Done bs s' tr →
  (size (models s') + length (filter (λ b, b = true) bs) =
   size (models s))%nat.
Proof.
  assert (Hgen : ∀ cs s tr0 bs s' tr,
    callAll cs s tr0 = Done bs s' tr →
    (size (models s') + length (filter (λ b, b = true) bs) =
     size (models s))%nat).
  { clear. induction cs as [|c cs IH]; intros s tr0 bs s' tr Hrun.
    - injection Hrun as <- <- _. simpl. lia.
    - rewrite callAll_cons in Hrun.
      destruct (call c s []) as [b s1 t1|] eqn:Hc; [|discriminate].
      destruct (callAll cs s1 (tr0 ++ t1)) as [bs1 s2 t2|] eqn:Hcs;
        [|discriminate].
      injection Hrun as <- <- _. apply IH in Hcs.
      apply call_Done_models in Hc. rewrite filter_cons. destruct b.
      + destruct Hc as (e & model & Hm & Hs1).
        rewrite Hs1, map_size_delete, Hm in Hcs. simpl in *.
        assert (models s ≠ ∅) by (intros Hempty; by rewrite Hempty in Hm).
        pose proof (map_size_non_empty_iff (models s)).
        assert (size (models s) ≠ 0%nat) by tauto. lia.
      + subst s1. rewrite decide_False by discriminate. exact Hcs. }
  apply Hgen.
Qed.

End MoreProperties.

(** ** The further properties at work on the worked stores *)

Lemma scenario_modelsResolve : modelsResolve scenario.
Proof.
  apply (bool_decide_unpack (modelsResolve scenario)). vm_compute. exact I.
Qed.

Lemma RemoveModelByIndex_1_scenario :
  RemoveModelByIndex W 1 scenario [] =
    Done true (run writesM2 scenario) writesM2.
Proof. vm_compute. reflexivity. Qed.

Lemma RemoveModelByIndex_1_scenarioCross :
  RemoveModelByIndex W 1 scenarioCross [] =
    Done true (run writesM2 scenarioCross) writesM2.
Proof. vm_compute. reflexivity. Qed.


Lemma successful_call_final_records_witness :
  ∃ w idx,
    callTarget (removeModel M2) scenario = Some (w, idx) ∧
    is_Some (models scenario !! indexInContainerToId scenario w idx) ∧
    models (run writesM2 scenario) =
      delete (indexInContainerToId scenario w idx) (models scenario) ∧
    (∀ k, links (run writesM2 scenario) !! k =
          match links scenario !! k with
          | Some l => if LinkInfo.model l =? idx then None else Some l
          | None => None
          end) ∧
    (∀ k, collisions (run writesM2 scenario) !! k =
          match collisions scenario !! k with
          | Some c => if CollisionInfo.model c =? idx then None else Some c
          | None => None
          end) ∧
    (∀ k, joints (run writesM2 scenario) !! k =
          match joints scenario !! k with
          | Some j =>
              match links scenario !! JointInfo.childLinkId j with
              | Some l => if LinkInfo.model l =? idx then None else Some j
              | None => Some j
              end
          | None => None
          end).
Proof.
  apply (successful_call_final_records (removeModel M2) scenario
           (run writesM2 scenario) writesM2).
  exact RemoveModel_M2_scenario.
Defined.

Lemma returning_removal_never_adds_witness :
  models (run writesM2 scenario) ⊆ models scenario ∧
  links (run writesM2 scenario) ⊆ links scenario ∧
  collisions (run writesM2 scenario) ⊆ collisions scenario ∧
  joints (run writesM2 scenario) ⊆ joints scenario ∧
  childIdToParentId (run writesM2 scenario) ⊆ childIdToParentId scenario ∧
  (∀ bw h, rigidBodyAttached (run writesM2 scenario) bw h = true →
           rigidBodyAttached scenario bw h = true) ∧
  (∀ bw h, constraintAttached (run writesM2 scenario) bw h = true →
           constraintAttached scenario bw h = true).
Proof.
  apply (returning_removal_never_adds (removeModel M2) scenario true
           (run writesM2 scenario) writesM2).
  exact RemoveModel_M2_scenario.
Defined.

Lemma removal_by_index_child_to_parent_witness :
  (∀ k, k = 1 ∨ erasedRecord scenario (run writesM2 scenario) k →
        childIdToParentId (run writesM2 scenario) !! k = None) ∧
  (∀ k, k ≠ 1 → ¬ erasedRecord scenario (run writesM2 scenario) k →
        childIdToParentId (run writesM2 scenario) !! k =
        childIdToParentId scenario !! k).
Proof.
  apply (removal_by_index_child_to_parent W 1 scenario
           (run writesM2 scenario) writesM2).
  exact RemoveModelByIndex_1_scenario.
Defined.

Lemma removal_by_index_native_worlds_witness :
  ∃ model,
    models scenario !! indexInContainerToId scenario W 1 = Some model ∧
    (∀ k, k ≠ ModelInfo.world model →
          worlds (run writesM2 scenario) !! k = worlds scenario !! k) ∧
    (∀ k, worldSettings <$> worlds (run writesM2 scenario) !! k =
          worldSettings <$> worlds scenario !! k) ∧
    (∀ h, rigidBodyAttached (run writesM2 scenario)
            (ModelInfo.world model) h = true ↔
          rigidBodyAttached scenario (ModelInfo.world model) h = true ∧
          ¬ ∃ k l, links scenario !! k = Some l ∧ LinkInfo.model l = 1 ∧
                   LinkInfo.link l = h) ∧
    (∀ h, constraintAttached (run writesM2 scenario)
            (ModelInfo.world model) h = true ↔
          constraintAttached scenario (ModelInfo.world model) h = true ∧
          ¬ ∃ k j l, joints scenario !! k = Some j ∧
                     links scenario !! JointInfo.childLinkId j = Some l ∧
                     LinkInfo.model l = 1 ∧ JointInfo.joint j = h).
Proof.
  apply (removal_by_index_native_worlds W 1 scenario
           (run writesM2 scenario) writesM2).
  exact RemoveModelByIndex_1_scenario.
Defined.

Lemma ModelRemoved_across_call_witness :
  ∃ e, ModelRemoved scenario e = false ∧
       ModelRemoved (run writesM2 scenario) e = true ∧
       (∀ m, m ≠ e →
             ModelRemoved (run writesM2 scenario) m = ModelRemoved scenario m) ∧
       (size (models (run writesM2 scenario)) + 1 =
        size (models scenario))%nat.
Proof.
  apply (ModelRemoved_across_call (removeModel M2) scenario true
           (run writesM2 scenario) writesM2).
  exact RemoveModel_M2_scenario.
Defined.

Lemma scans_independent_of_iteration_order_witness :
  ∃ s1 t t',
    jointLoop W 1 [(J1, JointInfo.mk 105 L2 L1); (J2, JointInfo.mk 108 L3 L1)]
      scenarioCross [] = Done tt s1 ([] ++ t) ∧
    jointLoop W 1 [(J2, JointInfo.mk 108 L3 L1); (J1, JointInfo.mk 105 L2 L1)]
      scenarioCross [] = Done tt s1 ([] ++ t') ∧
    t ≡ₚ t'.
Proof.
  apply (proj1 (scans_independent_of_iteration_order W 1 scenarioCross [])).
  - apply perm_swap.
  - intros e He.
    apply elem_of_cons in He as [->|He];
      [eexists; vm_compute; reflexivity|].
    apply list_elem_of_singleton in He as ->.
    eexists; vm_compute; reflexivity.
Defined.

Lemma removal_leaves_joint_without_parent_witness :
  joints (run writesM2 scenarioCross) !! J2 = Some (JointInfo.mk 108 L3 L1) ∧
  links (run writesM2 scenarioCross) !! L3 = Some (LinkInfo.mk M2 107) ∧
  links (run writesM2 scenarioCross) !! L1 = None.
Proof.
  apply (removal_leaves_joint_without_parent W 1 scenarioCross
           (run writesM2 scenarioCross) writesM2 J2
           (JointInfo.mk 108 L3 L1) (LinkInfo.mk M2 107) (LinkInfo.mk M1 102)).
  - exact RemoveModelByIndex_1_scenarioCross.
  - reflexivity.
  - reflexivity.
  - discriminate.
  - reflexivity.
  - reflexivity.
Defined.

Lemma removal_by_name_is_idempotent_witness :
  ∃ s1 tr, RemoveModelByName 0 "a" twoWorlds [] = Done true s1 tr ∧
           ModelRemoved s1 2 = true ∧
           ∀ w, RemoveModelByName w "a" s1 [] = Done false s1 [].
Proof.
  apply (removal_by_name_is_idempotent twoWorlds "a"%string 2
           (ModelInfo.mk "a" 0)).
  - reflexivity.
  - reflexivity.
  - intros m' model' Hm Hname.
    apply elem_of_map_to_list in Hm. vm_compute in Hm.
    apply elem_of_cons in Hm as [Hm|Hm]; [by simplify_eq|].
    apply elem_of_cons in Hm as [Hm|Hm]; [by simplify_eq|].
    by apply elem_of_nil in Hm.
  - vm_compute. reflexivity.
  - eexists. vm_compute. reflexivity.
  - exact twoWorlds_jointsResolve.
Defined.

Lemma removal_sequence_never_faults_witness :
  ∃ bs s' tr,
    callAll [removeModel M1; removeModel M1; removeModelByName W "m2";
             removeModel 42] scenario [] = Done bs s' tr ∧
    length bs = 4%nat ∧ jointsResolve s' ∧ modelsResolve s'.
Proof.
  apply (removal_sequence_never_faults
           [removeModel M1; removeModel M1; removeModelByName W "m2";
            removeModel 42] scenario).
  - exact scenario_jointsResolve.
  - exact scenario_modelsResolve.
Defined.

Lemma successes_bounded_by_model_count_witness :
  (size (models (run (writesM1 ++ writesM2) scenario)) +
   length (filter (λ b, b = true) [true; false; true; false]) =
   size (models scenario))%nat.
Proof.
  apply (successes_bounded_by_model_count
           [removeModel M1; removeModel M1; removeModelByName W "m2";
            removeModel 42] scenario [true; false; true; false]
           (run (writesM1 ++ writesM2) scenario) (writesM1 ++ writesM2)).
  vm_compute. reflexivity.
Defined.

Lemma removal_keeps_entities_when_index_differs_witness :
  (∀ k l, links scenario !! k = Some l → LinkInfo.model l = M1 →
          links (run writesM1 scenario) !! k = Some l) ∧
  (∀ k c, collisions scenario !! k = Some c → CollisionInfo.model c = M1 →
          collisions (run writesM1 scenario) !! k = Some c) ∧
  (∀ k j l, joints scenario !! k = Some j →
            links scenario !! JointInfo.childLinkId j = Some l →
            LinkInfo.model l = M1 →
            joints (run writesM1 scenario) !! k = Some j).
Proof.
  apply (removal_keeps_entities_when_index_differs M1 scenario
           (run writesM1 scenario) writesM1).
  - exact RemoveModel_M1_scenario.
  - vm_compute. discriminate.
Defined.

Lemma removal_erases_entities_of_index_witness :
  (∀ k l, links scenario !! k = Some l →
          LinkInfo.model l = idToIndexInContainer scenario M2 →
          links (run writesM2 scenario) !! k = None) ∧
  (∀ k c, collisions scenario !! k = Some c →
          CollisionInfo.model c = idToIndexInContainer scenario M2 →
          collisions (run writesM2 scenario) !! k = None) ∧
  (∀ k j l, joints scenario !! k = Some j →
            links scenario !! JointInfo.childLinkId j = Some l →
            LinkInfo.model l = idToIndexInContainer scenario M2 →
            joints (run writesM2 scenario) !! k = None).
Proof.
  apply (removal_erases_entities_of_index M2 scenario
           (run writesM2 scenario) writesM2).
  exact RemoveModel_M2_scenario.
Defined.
